(** * SQL query analyzer: column names of a SELECT statement

    A shallow embedding of [src/sql-query-analyzer.js] (class
    [SQLQueryAnalyzer]) and the properties of its specification.

    JavaScript strings are sequences of code units.  Here a string is a
    [list ascii]: the code units U+0000..U+00FF.  The white space of
    [String.prototype.trim] and of the regular expression class [\s] in this
    range is TAB, LF, VT, FF, CR, SPACE and NBSP; [\w] is [A-Za-z0-9_], also
    under the [i] flag.  [toUpperCase] and [toLowerCase] are taken on the
    ASCII letters and leave every other code unit alone: the program
    compares upper-cased text with ASCII constants only ([SELECT],
    [ FROM ], the keyword set) and lower-cases [\w] text only. *)

From Stdlib Require Import Ascii String List ZArith Lia Bool Arith.
From Stdlib Require Import Permutation.
Import ListNotations.

Set Implicit Arguments.

Local Open Scope string_scope.
Local Open Scope list_scope.
Local Open Scope bool_scope.
Local Open Scope nat_scope.

(** ** Strings *)

Definition str := list ascii.

Definition lit (s : string) : str := list_ascii_of_string s.

Coercion lit : string >-> str.

Definition code (c : ascii) : nat := nat_of_ascii c.

Definition ch_eqb (a b : ascii) : bool := Ascii.eqb a b.

Fixpoint str_eqb (a b : str) : bool :=
  match a, b with
  | [], [] => true
  | x :: a', y :: b' => ch_eqb x y && str_eqb a' b'
  | _, _ => false
  end.

(** White space: the [WhiteSpace] and [LineTerminator] productions of
    ECMAScript restricted to the code units of the model. *)
Definition is_ws (c : ascii) : bool :=
  let n := code c in
  (n =? 9) || (n =? 10) || (n =? 11) || (n =? 12) || (n =? 13)
  || (n =? 32) || (n =? 160).

(** [\w] *)
Definition is_upper (c : ascii) : bool := (65 <=? code c) && (code c <=? 90).
Definition is_lower (c : ascii) : bool := (97 <=? code c) && (code c <=? 122).
Definition is_digit (c : ascii) : bool := (48 <=? code c) && (code c <=? 57).
Definition is_underscore (c : ascii) : bool := code c =? 95.
Definition is_word (c : ascii) : bool :=
  is_upper c || is_lower c || is_digit c || is_underscore c.

(** [[a-zA-Z_]] *)
Definition is_ident_start (c : ascii) : bool :=
  is_lower c || is_upper c || is_underscore c.

(** [.] of a regular expression without the [s] flag: anything but a line
    terminator. *)
Definition is_line_terminator (c : ascii) : bool :=
  (code c =? 10) || (code c =? 13).
Definition is_dot (c : ascii) : bool := negb (is_line_terminator c).

Definition upper_ch (c : ascii) : ascii :=
  if is_lower c then ascii_of_nat (code c - 32) else c.
Definition lower_ch (c : ascii) : ascii :=
  if is_upper c then ascii_of_nat (code c + 32) else c.

Definition toUpperCase (s : str) : str := map upper_ch s.
Definition toLowerCase (s : str) : str := map lower_ch s.

Fixpoint dropWhile (p : ascii -> bool) (s : str) : str :=
  match s with
  | [] => []
  | c :: s' => if p c then dropWhile p s' else s
  end.

Definition trimStart (s : str) : str := dropWhile is_ws s.
Definition trimEnd (s : str) : str := rev (dropWhile is_ws (rev s)).
Definition trim (s : str) : str := trimEnd (trimStart s).

Fixpoint startsWith (s pat : str) : bool :=
  match pat, s with
  | [], _ => true
  | p :: pat', c :: s' => ch_eqb c p && startsWith s' pat'
  | _ :: _, [] => false
  end.

Definition len (s : str) : Z := Z.of_nat (length s).

(** [s.substring(a, b)]: both indices are clamped to [0, s.length] and
    swapped when out of order. *)
Definition clamp (s : str) (i : Z) : nat := Z.to_nat (Z.min (Z.max i 0) (len s)).

Definition substring (s : str) (a b : Z) : str :=
  let a' := clamp s a in
  let b' := clamp s b in
  let lo := Nat.min a' b' in
  let hi := Nat.max a' b' in
  firstn (hi - lo) (skipn lo s).

(** [s.substring(a)] *)
Definition substring_from (s : str) (a : Z) : str := substring s a (len s).

(** [s.indexOf(pat)]: index of the first occurrence, [-1] when there is
    none. *)
Fixpoint indexOf_from (s pat : str) (i : Z) : Z :=
  if startsWith s pat then i
  else match s with
       | [] => (-1)%Z
       | _ :: s' => indexOf_from s' pat (i + 1)
       end.

Definition indexOf (s pat : str) : Z := indexOf_from s pat 0.

(** [s.lastIndexOf(c)] for a one-character pattern. *)
Fixpoint lastIndexOf_from (s : str) (c : ascii) (i : Z) (found : Z) : Z :=
  match s with
  | [] => found
  | x :: s' => lastIndexOf_from s' c (i + 1) (if ch_eqb x c then i else found)
  end.

Definition lastIndexOf (s : str) (c : ascii) : Z :=
  lastIndexOf_from s c 0 (-1).

(** [s[i]]: [None] stands for [undefined] (an index out of range) and for
    the empty string of [i > 0 ? query[i - 1] : '']; neither is equal to a
    character. *)
Definition charAt (s : str) (i : nat) : option ascii := nth_error s i.

(** ** Regular expressions

    The regular expressions of the program are sequences of single
    characters, character classes under [+], [+?] and [*], one optional
    non-capturing group, capture groups and [$].  [rx] is the backtracking
    matcher of ECMAScript on this fragment, in continuation-passing style:
    a greedy quantifier tries the longest repetition first, a lazy one the
    shortest, and a failure of the continuation makes it try the next. *)

Section Backtracking.
Variable A : Type.
Variable p : ascii -> bool.

Fixpoint star_greedy (s : str) (k : str -> option A) : option A :=
  match s with
  | [] => k []
  | c :: s' =>
      if p c then
        match star_greedy s' k with
        | Some x => Some x
        | None => k s
        end
      else k s
  end.

Fixpoint star_lazy (s : str) (k : str -> option A) : option A :=
  match k s with
  | Some x => Some x
  | None =>
      match s with
      | [] => None
      | c :: s' => if p c then star_lazy s' k else None
      end
  end.

Definition plus_greedy (s : str) (k : str -> option A) : option A :=
  match s with
  | [] => None
  | c :: s' => if p c then star_greedy s' k else None
  end.

Definition plus_lazy (s : str) (k : str -> option A) : option A :=
  match s with
  | [] => None
  | c :: s' => if p c then star_lazy s' k else None
  end.
End Backtracking.

Inductive regex : Type :=
| RChar (p : ascii -> bool)            (* one character of a class *)
| RPlus (p : ascii -> bool)            (* class+ *)
| RPlusLazy (p : ascii -> bool)        (* class+? *)
| RStar (p : ascii -> bool)            (* class* *)
| RSeq (r1 r2 : regex)                 (* r1 r2 *)
| ROpt (r : regex)                     (* (?:r)? *)
| RGroup (n : nat) (r : regex)         (* (r), the n-th capture group *)
| REnd.                                (* $ *)

Definition captures := list (nat * str).

Fixpoint rx (r : regex) (s : str) (caps : captures)
    (k : str -> captures -> option captures) : option captures :=
  match r with
  | RChar p =>
      match s with
      | [] => None
      | c :: s' => if p c then k s' caps else None
      end
  | RPlus p => plus_greedy p s (fun rest => k rest caps)
  | RPlusLazy p => plus_lazy p s (fun rest => k rest caps)
  | RStar p => star_greedy p s (fun rest => k rest caps)
  | RSeq r1 r2 => rx r1 s caps (fun rest caps' => rx r2 rest caps' k)
  | ROpt r1 =>
      match rx r1 s caps k with
      | Some x => Some x
      | None => k s caps
      end
  | RGroup n r1 =>
      rx r1 s caps
        (fun rest caps' =>
           k rest ((n, firstn (length s - length rest) s) :: caps'))
  | REnd =>
      match s with
      | [] => k [] caps
      | _ :: _ => None
      end
  end.

(** [s.match(r)] for a regular expression [r] that begins with [^]: the
    capture groups of the match at index 0, if there is one. *)
Definition rx_match (r : regex) (s : str) : option captures :=
  rx r s [] (fun _ caps => Some caps).

(** [r.test(s)], again for [r] beginning with [^]. *)
Definition rx_test (r : regex) (s : str) : bool :=
  match rx_match r s with
  | Some _ => true
  | None => false
  end.

(** [m[n]] of a match result. *)
Fixpoint group (n : nat) (caps : captures) : str :=
  match caps with
  | [] => []
  | (i, t) :: caps' => if Nat.eqb i n then t else group n caps'
  end.

(** A literal character under the [i] flag. *)
Definition ci (c : ascii) : ascii -> bool :=
  fun x => ch_eqb (upper_ch x) (upper_ch c).

Definition is_char (c : ascii) : ascii -> bool := fun x => ch_eqb x c.

Infix ";;" := RSeq (at level 61, right associativity).

(** [/^(?:AS\s+)?(\w+)$/i] *)
Definition subqueryAsRegex : regex :=
  ROpt (RChar (ci "A") ;; RChar (ci "S") ;; RPlus is_ws) ;;
  RGroup 1 (RPlus is_word) ;; REnd.

(** [/^(\w+)$/] *)
Definition implicitRegex : regex := RGroup 1 (RPlus is_word) ;; REnd.

(** [/^(.+?)\s+AS\s+(\w+)$/i] *)
Definition asRegex : regex :=
  RGroup 1 (RPlusLazy is_dot) ;; RPlus is_ws ;;
  RChar (ci "A") ;; RChar (ci "S") ;; RPlus is_ws ;;
  RGroup 2 (RPlus is_word) ;; REnd.

(** [/^[a-zA-Z_]\w*$/] *)
Definition identRegex : regex := RChar is_ident_start ;; RStar is_word ;; REnd.

(** [/^(\w+)\s*\(/] *)
Definition funcRegex : regex :=
  RGroup 1 (RPlus is_word) ;; RStar is_ws ;; RChar (is_char "(").

(** [/[+\-*/]/.test(s)]: some character of [s] is in the class. *)
Definition is_operator (c : ascii) : bool :=
  ch_eqb c "+" || ch_eqb c "-" || ch_eqb c "*" || ch_eqb c "/".
Definition operatorTest (s : str) : bool := existsb is_operator s.

(** [s.split(/\s+/)]: the pieces between the maximal runs of white space;
    a leading or trailing run gives an empty first or last piece, and the
    empty string gives one empty piece. *)
Fixpoint split_ws_from (s : str) (cur : str) (insep : bool) : list str :=
  match s with
  | [] => [cur]
  | c :: s' =>
      if is_ws c then
        if insep then split_ws_from s' cur true
        else cur :: split_ws_from s' [] true
      else split_ws_from s' (cur ++ [c]) false
  end.

Definition split_ws (s : str) : list str := split_ws_from s [] false.

(** [s.replace(/\s+/g, ' ')]: every maximal run of white space becomes one
    space. *)
Fixpoint replace_ws_runs (s : str) (inrun : bool) : str :=
  match s with
  | [] => []
  | c :: s' =>
      if is_ws c then
        if inrun then replace_ws_runs s' true
        else " "%char :: replace_ws_runs s' true
      else c :: replace_ws_runs s' false
  end.

(** [s.replace(/c/g, ' ')] for a single character [c]. *)
Definition replace_char (c : ascii) (s : str) : str :=
  map (fun x => if ch_eqb x c then " "%char else x) s.

(** ** Values and outcomes *)

(** The argument of [analyzeQuery] is any JavaScript value. *)
Inductive JsValue : Type :=
| JsUndefined
| JsNull
| JsBoolean (b : bool)
| JsNumber (n : Z)
| JsString (s : str)
| JsObject.

Definition typeof (v : JsValue) : str :=
  match v with
  | JsUndefined => "undefined"
  | JsNull => "object"
  | JsBoolean _ => "boolean"
  | JsNumber _ => "number"
  | JsString _ => "string"
  | JsObject => "object"
  end.

(** [ToBoolean] *)
Definition truthy (v : JsValue) : bool :=
  match v with
  | JsUndefined | JsNull => false
  | JsBoolean b => b
  | JsNumber n => negb (n =? 0)%Z
  | JsString s => negb (str_eqb s [])
  | JsObject => true
  end.

(** A call returns a value or throws [new Error(msg)]. *)
Inductive outcome (A : Type) : Type :=
| Return (a : A)
| Throw (msg : str).

Arguments Return {A} a.
Arguments Throw {A} msg.

(** ** The analyzer *)

Module SQLQueryAnalyzer.

(** The object: its only field is the keyword set. *)
Record t : Type := { sqlKeywords : list str }.

Definition constructor : t :=
  {| sqlKeywords :=
       [ lit "FROM"; lit "WHERE"; lit "GROUP"; lit "HAVING"; lit "ORDER";
         lit "LIMIT"; lit "OFFSET"; lit "UNION"; lit "INTERSECT";
         lit "EXCEPT"; lit "JOIN"; lit "INNER"; lit "LEFT"; lit "RIGHT";
         lit "FULL"; lit "OUTER"; lit "ON"; lit "USING" ] |}.

(** [set.has(x)] *)
Definition has (set : list str) (x : str) : bool := existsb (str_eqb x) set.

Definition cleanQuery (query : str) : str :=
  replace_char "009" (replace_char "010" (replace_ws_runs (trim query) false)).

Definition isSelectQuery (query : str) : bool :=
  startsWith (trim (toUpperCase query)) "SELECT".

(** The scanner state shared by the two loops. *)
Record scan : Type :=
  { parenthesesLevel : Z; inQuotes : bool; quoteChar : option ascii }.

Definition scan0 : scan :=
  {| parenthesesLevel := 0; inQuotes := false; quoteChar := None |}.

Definition dquote : ascii := ascii_of_nat 34.
Definition squote : ascii := "'".
Definition backslash : ascii := "\".

Definition opt_is (o : option ascii) (c : ascii) : bool :=
  match o with
  | Some x => ch_eqb x c
  | None => false
  end.

(** "Handle quotes" *)
Definition handleQuotes (char : ascii) (prevChar : option ascii) (st : scan) : scan :=
  if (ch_eqb char dquote || ch_eqb char squote) && negb (opt_is prevChar backslash)
  then
    if negb (inQuotes st) then
      {| parenthesesLevel := parenthesesLevel st;
         inQuotes := true; quoteChar := Some char |}
    else if opt_is (quoteChar st) char then
      {| parenthesesLevel := parenthesesLevel st;
         inQuotes := false; quoteChar := None |}
    else st
  else st.

(** "Track parentheses level" *)
Definition trackParentheses (char : ascii) (st : scan) : scan :=
  if ch_eqb char "(" then
    {| parenthesesLevel := parenthesesLevel st + 1;
       inQuotes := inQuotes st; quoteChar := quoteChar st |}
  else if ch_eqb char ")" then
    {| parenthesesLevel := parenthesesLevel st - 1;
       inQuotes := inQuotes st; quoteChar := quoteChar st |}
  else st.

(** The loop of [extractSelectClause]: [rest] is [query.substring(i)],
    [qlen] is [query.length]; the result is [selectEnd]. *)
Fixpoint findSelectEnd (rest : str) (prevChar : option ascii) (i qlen : Z)
    (st : scan) : Z :=
  match rest with
  | [] => qlen
  | char :: rest' =>
      if (i <? qlen - 4)%Z then
        let st1 := handleQuotes char prevChar st in
        if negb (inQuotes st1) then
          let st2 := trackParentheses char st1 in
          if (parenthesesLevel st2 =? 0)%Z
             && startsWith (toUpperCase rest) " FROM "
          then i
          else findSelectEnd rest' (Some char) (i + 1) qlen st2
        else findSelectEnd rest' (Some char) (i + 1) qlen st1
      else qlen
  end.

(** [i > 0 ? query[i - 1] : ''] *)
Definition prevCharAt (query : str) (i : Z) : option ascii :=
  if (0 <? i)%Z then charAt query (Z.to_nat (i - 1)) else None.

(** [upperQuery.indexOf('SELECT') + 6] *)
Definition selectStart (query : str) : Z :=
  (indexOf (toUpperCase query) "SELECT" + 6)%Z.

(** [selectEnd] when the loop is left. *)
Definition selectEnd (query : str) : Z :=
  findSelectEnd (skipn (Z.to_nat (selectStart query)) query)
    (prevCharAt query (selectStart query)) (selectStart query) (len query)
    scan0.

Definition extractSelectClause (query : str) : str :=
  trim (substring query (selectStart query) (selectEnd query)).

(** The loop of [splitSelectColumns], from the state [(parts, currentPart,
    st)] over the characters [rest]. *)
Fixpoint splitLoop (rest : str) (prevChar : option ascii) (parts : list str)
    (currentPart : str) (st : scan) : list str * str :=
  match rest with
  | [] => (parts, currentPart)
  | char :: rest' =>
      let st1 := handleQuotes char prevChar st in
      if negb (inQuotes st1) then
        let st2 := trackParentheses char st1 in
        if ch_eqb char "," && (parenthesesLevel st2 =? 0)%Z then
          splitLoop rest' (Some char) (parts ++ [trim currentPart]) [] st2
        else splitLoop rest' (Some char) parts (currentPart ++ [char]) st2
      else splitLoop rest' (Some char) parts (currentPart ++ [char]) st1
  end.

Definition nonempty (s : str) : bool := negb (str_eqb s []).

Definition splitSelectColumns (selectClause : str) : list str :=
  let '(parts, currentPart) := splitLoop selectClause None [] [] scan0 in
  if nonempty (trim currentPart) then parts ++ [trim currentPart] else parts.

Definition subquery_result : str := "subquery_result".
Definition calculated_field : str := "calculated_field".

(** The subquery branch of [extractColumnName]. *)
Definition subqueryName (columnExpr : str) : str :=
  let lastParenIndex := lastIndexOf columnExpr ")" in
  if negb (lastParenIndex =? -1)%Z then
    let afterParen := trim (substring_from columnExpr (lastParenIndex + 1)) in
    if nonempty afterParen then
      match rx_match subqueryAsRegex afterParen with
      | Some asMatch => group 1 asMatch
      | None =>
          match rx_match implicitRegex afterParen with
          | Some implicitMatch => group 1 implicitMatch
          | None => subquery_result
          end
      end
    else subquery_result
  else subquery_result.

(** [parts[parts.length - 1]] and [parts[0]]; [split] never returns an
    empty array. *)
Definition lastOf (parts : list str) : str := last parts [].
Definition firstOf (parts : list str) : str := hd [] parts.

(** [extractColumnName] after the explicit and implicit alias rules. *)
Definition baseName (baseExpr : str) : str :=
  match rx_match funcRegex baseExpr with
  | Some funcMatch => toLowerCase (group 1 funcMatch)
  | None =>
      let dotIndex := lastIndexOf baseExpr "." in
      if negb (dotIndex =? -1)%Z then substring_from baseExpr (dotIndex + 1)
      else if operatorTest baseExpr then calculated_field
      else baseExpr
  end.

Definition extractColumnName (this : t) (columnExpr : str) : str :=
  if startsWith (trim columnExpr) "(" then subqueryName columnExpr
  else
    match rx_match asRegex columnExpr with
    | Some asMatch => group 2 asMatch
    | None =>
        let parts := split_ws columnExpr in
        let lastPart := lastOf parts in
        if (2 <=? length parts)
           && negb (has (sqlKeywords this) (toUpperCase lastPart))
           && rx_test identRegex lastPart
        then lastPart
        else baseName (firstOf parts)
    end.

Definition parseSelectColumns (this : t) (selectClause : str) : list str :=
  let columnParts := splitSelectColumns selectClause in
  filter nonempty (map (fun part => extractColumnName this (trim part)) columnParts).

Definition msgInvalid : str := "Query must be a non-empty string".
Definition msgUnsupported : str := "Only SELECT queries are supported".

Definition analyzeQuery (this : t) (query : JsValue) : outcome (list str) :=
  if negb (truthy query) || negb (str_eqb (typeof query) "string") then
    Throw msgInvalid
  else
    match query with
    | JsString q =>
        let cleanQuery := cleanQuery q in
        if negb (isSelectQuery cleanQuery) then Throw msgUnsupported
        else
          let selectClause := extractSelectClause cleanQuery in
          let columns := parseSelectColumns this selectClause in
          Return columns
    | _ => Throw msgInvalid (* not reached: [typeof query] is "string" *)
    end.

End SQLQueryAnalyzer.

Import SQLQueryAnalyzer.

(** ** Notions of the specification *)

Definition all (p : ascii -> bool) (s : str) : Prop := forallb p s = true.

(** The words of a text: its maximal runs of characters that are not white
    space, in order. *)
Fixpoint words_from (s : str) (cur : str) : list str :=
  match s with
  | [] => if nonempty cur then [cur] else []
  | c :: s' =>
      if is_ws c then
        if nonempty cur then cur :: words_from s' [] else words_from s' []
      else words_from s' (cur ++ [c])
  end.

Definition words (s : str) : list str := words_from s [].

(** The words joined by single spaces. *)
Fixpoint join_sp (ws : list str) : str :=
  match ws with
  | [] => []
  | [w] => w
  | w :: rest => w ++ " "%char :: join_sp rest
  end.

(** A word: not empty and free of white space. *)
Definition is_token (w : str) : Prop :=
  w <> [] /\ all (fun c => negb (is_ws c)) w.


(** "Begins with the letters SELECT", in any letter case. *)
Definition begins_with_select (s : str) : bool :=
  startsWith (toUpperCase s) "SELECT".

(** [e] is [<anything> AS <word>] with the word [id]: some text without
    line terminators, white space, the letters A and S in any case, white
    space, and a final run [id] of letters, digits and underscores. *)
Definition explicit_alias (e id : str) : Prop :=
  exists x w1 a s w2,
    e = x ++ w1 ++ [a; s] ++ w2 ++ id
    /\ x <> [] /\ all is_dot x
    /\ w1 <> [] /\ all is_ws w1
    /\ upper_ch a = "A"%char /\ upper_ch s = "S"%char
    /\ w2 <> [] /\ all is_ws w2
    /\ id <> [] /\ all is_word id.

(** An identifier in the strict sense: a word that does not start with a
    digit. *)
Definition identifier (id : str) : Prop :=
  match id with
  | [] => False
  | c :: id' => is_ident_start c = true /\ all is_word id'
  end.

(** [t] is the keyword AS, in any letter case, white space and the word
    [id]. *)
Definition as_then_word (t id : str) : Prop :=
  exists a s w,
    t = [a; s] ++ w ++ id
    /\ upper_ch a = "A"%char /\ upper_ch s = "S"%char
    /\ w <> [] /\ all is_ws w
    /\ id <> [] /\ all is_word id.

(** [t] is one bare word. *)
Definition bare_word (t : str) : Prop := t <> [] /\ all is_word t.

(** One step of the scanner of the two loops: the state after [char]. *)
Definition scanStep (char : ascii) (prevChar : option ascii) (st : scan) : scan :=
  let st1 := handleQuotes char prevChar st in
  if negb (inQuotes st1) then trackParentheses char st1 else st1.

(** The scanner state after the first [n] characters of [rest]. *)
Fixpoint scanRun (rest : str) (prevChar : option ascii) (st : scan) (n : nat)
    {struct n} : scan :=
  match n, rest with
  | S n', c :: rest' => scanRun rest' (Some c) (scanStep c prevChar st) n'
  | _, _ => st
  end.

(** Depth zero and outside quotes. *)
Definition topLevel (st : scan) : bool :=
  negb (inQuotes st) && (parenthesesLevel st =? 0)%Z.



(** Every character of a clause with the scanner state at it. *)
Fixpoint annotate (rest : str) (prevChar : option ascii) (st : scan)
    : list (ascii * scan) :=
  match rest with
  | [] => []
  | c :: rest' =>
      let st' := scanStep c prevChar st in
      (c, st') :: annotate rest' (Some c) st'
  end.

(** A comma at depth zero outside quotes. *)
Definition topLevelComma (x : ascii * scan) : bool :=
  ch_eqb (fst x) "," && topLevel (snd x).

(** The pieces of a list between the elements that satisfy [P]. *)
Fixpoint split_on (A : Type) (P : A -> bool) (l : list A) (cur : list A)
    : list (list A) :=
  match l with
  | [] => [cur]
  | x :: l' =>
      if P x then cur :: split_on P l' [] else split_on P l' (cur ++ [x])
  end.


(** The segments of a clause: its pieces between the top-level commas. *)
Definition segments (clause : str) : list str :=
  map (map fst) (split_on topLevelComma (annotate clause None scan0) []).

(** The last segment is kept only if it is not blank. *)
Definition dropBlankLast (parts : list str) : list str :=
  if nonempty (last parts []) then parts else removelast parts.


(** The segments of the SELECT clause of a query, trimmed, as
    [parseSelectColumns] hands them to [extractColumnName]. *)
Definition clauseSegments (q : str) : list str :=
  map trim (splitSelectColumns (extractSelectClause (cleanQuery q))).

Definition lastChar (s : str) : option ascii := nth_error (rev s) 0.

(** The meaning of a regular expression: [Matches r a b caps caps'] when
    [r] can match the text [a] in front of the rest [b], taking the capture
    groups from [caps] to [caps']. *)
Inductive Matches : regex -> str -> str -> captures -> captures -> Prop :=
| MChar p c b caps :
    p c = true -> Matches (RChar p) [c] b caps caps
| MPlus p a b caps :
    a <> [] -> all p a -> Matches (RPlus p) a b caps caps
| MPlusLazy p a b caps :
    a <> [] -> all p a -> Matches (RPlusLazy p) a b caps caps
| MStar p a b caps :
    all p a -> Matches (RStar p) a b caps caps
| MSeq r1 r2 a1 a2 b c0 c1 c2 :
    Matches r1 a1 (a2 ++ b) c0 c1 -> Matches r2 a2 b c1 c2 ->
    Matches (RSeq r1 r2) (a1 ++ a2) b c0 c2
| MOptSome r a b c0 c1 :
    Matches r a b c0 c1 -> Matches (ROpt r) a b c0 c1
| MOptNone r b c0 :
    Matches (ROpt r) [] b c0 c0
| MGroup n r a b c0 c1 :
    Matches r a b c0 c1 -> Matches (RGroup n r) a b c0 ((n, a) :: c1)
| MEnd c0 :
    Matches REnd [] [] c0 c0.

(** The run of [p]-characters cannot go on into [b]. *)
Definition stops (p : ascii -> bool) (b : str) : Prop :=
  match b with
  | [] => True
  | c :: _ => p c = false
  end.

(** The same from the end of the text: [pre] ends where the final run of
    [p]-characters begins. *)
Definition stops_before (p : ascii -> bool) (pre : str) : Prop :=
  stops p (rev pre).

(** [analyze] on a literal query, and a literal list of names. *)
Definition analyze (q : string) : outcome (list str) :=
  analyzeQuery constructor (JsString q).

Definition returns (l : list string) : outcome (list str) := Return (map lit l).

(** ** Further notions *)

(** A text free of white space. *)
Definition ws_free (s : str) : Prop := all (fun c => negb (is_ws c)) s.

(** A character that is no quote and no parenthesis: the scanner passes
    over it. *)
Definition is_plain (c : ascii) : bool :=
  negb (ch_eqb c dquote) && negb (ch_eqb c squote)
  && negb (ch_eqb c "(") && negb (ch_eqb c ")").

Definition is_comma (c : ascii) : bool := ch_eqb c ",".

(** The scanner keeps the quote character exactly while it is inside a
    literal. *)
Definition scan_ok (st : scan) : Prop :=
  if inQuotes st
  then quoteChar st = Some squote \/ quoteChar st = Some dquote
  else quoteChar st = None.

(** The tokens of a select list: every item but the last is followed by
    a comma. *)
Fixpoint commaed (items : list str) : list str :=
  match items with
  | [] => []
  | [w] => [w]
  | w :: rest => (w ++ [","%char]) :: commaed rest
  end.

(** The query [SELECT w1, w2, ..., wn FROM table]. *)
Definition selectQuery (items : list str) (table : str) : str :=
  join_sp (lit "SELECT" :: commaed items ++ [lit "FROM"; table]).

(** The tokens, a space in front of each. *)
Definition spaced (toks : list str) : str :=
  concat (map (fun t => " "%char :: t) toks).

(** *** The callers *)


(** [query.replace(/\s+/g, ' ').trim()], the text that the test suite and
    the usage examples print for a query. *)
Definition displayQuery (query : str) : str :=
  trim (replace_ws_runs query false).

(** The default order of [Array.prototype.sort] on strings: code unit by
    code unit. *)
Fixpoint str_leb (a b : str) : bool :=
  match a, b with
  | [], _ => true
  | _ :: _, [] => false
  | x :: a', y :: b' =>
      if code x <? code y then true
      else if code y <? code x then false
      else str_leb a' b'
  end.

(** [array.sort()]: the strings in ascending order. *)
Fixpoint insertSorted (x : str) (l : list str) : list str :=
  match l with
  | [] => [x]
  | y :: l' => if str_leb x y then x :: l else y :: insertSorted x l'
  end.

Fixpoint sortStrings (l : list str) : list str :=
  match l with
  | [] => []
  | x :: l' => insertSorted x (sortStrings l')
  end.

Fixpoint list_eqb (a b : list str) : bool :=
  match a, b with
  | [], [] => true
  | x :: a', y :: b' => str_eqb x y && list_eqb a' b'
  | _, _ => false
  end.

(** The verdict of the test suite on a result:
    [JSON.stringify(result.sort()) === JSON.stringify(expected.sort())].
    The JSON text of an array of strings determines the array. *)
Definition passed (result expected : list str) : bool :=
  list_eqb (sortStrings result) (sortStrings expected).

(** Ascending order. *)
Fixpoint sorted (l : list str) : Prop :=
  match l with
  | [] => True
  | x :: l' => (forall y, In y l' -> str_leb x y = true) /\ sorted l'
  end.

(** ** Tactics *)

(** A fact about every character, by cases on its eight bits. *)
Ltac all_chars c :=
  destruct c as [[] [] [] [] [] [] [] []]; vm_compute;
  try reflexivity; try discriminate.

(** Take a match of a given regular expression apart. *)
Ltac inv_matches :=
  repeat match goal with
    | H : Matches (RSeq _ _) _ _ _ _ |- _ => inversion H; subst; clear H
    | H : Matches (RGroup _ _) _ _ _ _ |- _ => inversion H; subst; clear H
    | H : Matches (RChar _) _ _ _ _ |- _ => inversion H; subst; clear H
    | H : Matches (RPlus _) _ _ _ _ |- _ => inversion H; subst; clear H
    | H : Matches (RPlusLazy _) _ _ _ _ |- _ => inversion H; subst; clear H
    | H : Matches (RStar _) _ _ _ _ |- _ => inversion H; subst; clear H
    | H : Matches REnd _ _ _ _ |- _ => inversion H; subst; clear H
    | H : Matches (ROpt _) _ _ _ _ |- _ => inversion H; subst; clear H
    end.

(** One index of a scan over a literal text: the scanner is not at the top
    level there, or no FROM begins there, or the index is out of range. *)
Ltac scan_case Ht Hk :=
  first [ vm_compute in Ht; discriminate Ht
        | vm_compute; reflexivity
        | exfalso; simpl in Hk; lia ].

(** ** Basic facts *)

Lemma ch_eqb_eq (a b : ascii) : ch_eqb a b = true <-> a = b.
Proof. apply Ascii.eqb_eq. Qed.

Lemma ch_eqb_refl (a : ascii) : ch_eqb a a = true.
Proof. apply Ascii.eqb_refl. Qed.

Lemma str_eqb_eq (a b : str) : str_eqb a b = true <-> a = b.
Proof.
  revert b; induction a as [|x a IH]; intros [|y b]; simpl; split;
    try congruence; try reflexivity.
  - intros H. apply andb_true_iff in H as [H1 H2].
    apply ch_eqb_eq in H1. apply IH in H2. congruence.
  - intros H. injection H as -> ->.
    rewrite ch_eqb_refl. simpl. now apply IH.
Qed.

Lemma nonempty_true (s : str) : nonempty s = true <-> s <> [].
Proof.
  destruct s; simpl; split; intros H; try discriminate; try reflexivity.
  now elim H.
Qed.

Lemma nonempty_false (s : str) : nonempty s = false <-> s = [].
Proof. destruct s; simpl; split; intros H; try discriminate; reflexivity. Qed.

Lemma dropWhile_all (p : ascii -> bool) (s : str) :
  all p s -> dropWhile p s = [].
Proof.
  unfold all. induction s as [|c s IH]; simpl; [reflexivity|].
  intros H. apply andb_true_iff in H as [Hc Hs]. rewrite Hc. auto.
Qed.

Lemma trim_blank (s : str) : all is_ws s -> trim s = [].
Proof.
  intros H. unfold trim, trimStart, trimEnd. now rewrite (dropWhile_all H).
Qed.

Lemma analyze_string (this : SQLQueryAnalyzer.t) (s : str) :
  s <> [] ->
  analyzeQuery this (JsString s) =
    if isSelectQuery (cleanQuery s)
    then Return (parseSelectColumns this (extractSelectClause (cleanQuery s)))
    else Throw msgUnsupported.
Proof.
  intros H. unfold analyzeQuery.
  destruct s as [|c s]; [now elim H|]. simpl truthy. simpl typeof.
  replace (str_eqb (lit "string") (lit "string")) with true by reflexivity.
  simpl. now destruct (isSelectQuery _).
Qed.

Lemma analyze_not_string (this : SQLQueryAnalyzer.t) (v : JsValue) :
  (forall s, v <> JsString s) -> analyzeQuery this v = Throw msgInvalid.
Proof.
  intros H. destruct v; try reflexivity.
  - unfold analyzeQuery. now destruct (negb _ || negb _).
  - unfold analyzeQuery. now destruct (negb _ || negb _).
  - now elim (H s).
Qed.

Lemma analyze_empty (this : SQLQueryAnalyzer.t) :
  analyzeQuery this (JsString []) = Throw msgInvalid.
Proof. reflexivity. Qed.

Lemma msg_distinct : msgUnsupported <> msgInvalid.
Proof. discriminate. Qed.

Lemma parseSelectColumns_eq (this : SQLQueryAnalyzer.t) (clause : str) :
  parseSelectColumns this clause =
  filter nonempty
    (map (extractColumnName this) (map trim (splitSelectColumns clause))).
Proof. unfold parseSelectColumns. now rewrite map_map. Qed.

(** ** The literal scenarios *)

(** C1: on [SELECT price * quantity FROM order_items] the program answers
    [["quantity"]], the last token taken as an implicit alias, and not
    [["calculated_field"]]; with [AS total] it answers [["total"]]. *)
Theorem computed_expression_scenario :
  analyzeQuery constructor (JsString "SELECT price * quantity FROM order_items")
    = Return [lit "quantity"]
  /\ analyzeQuery constructor (JsString "SELECT price * quantity FROM order_items")
    <> Return [calculated_field]
  /\ analyzeQuery constructor
       (JsString "SELECT price * quantity AS total FROM order_items")
    = Return [lit "total"].
Proof.
  split; [|split]; try (vm_compute; reflexivity).
  vm_compute. discriminate.
Qed.

(** The other scenarios of the specification and of the test suite,
    evaluated on the model. *)

Example scenario_simple :
  analyze "SELECT name, email, age FROM users" = returns ["name"; "email"; "age"].
Proof. vm_compute. reflexivity. Qed.

Example scenario_aliases :
  analyze "SELECT name AS customer_name, email AS contact_email FROM customers"
  = returns ["customer_name"; "contact_email"].
Proof. vm_compute. reflexivity. Qed.

Example scenario_join :
  analyze "SELECT u.name, u.email, p.title FROM users u JOIN posts p ON u.id = p.user_id"
  = returns ["name"; "email"; "title"].
Proof. vm_compute. reflexivity. Qed.

Example scenario_function_aliases :
  analyze "SELECT COUNT(id) AS total_users, AVG(age) AS average_age FROM users"
  = returns ["total_users"; "average_age"].
Proof. vm_compute. reflexivity. Qed.

Example scenario_subquery :
  analyze "SELECT name, (SELECT COUNT(*) FROM orders WHERE user_id = u.id) AS order_count FROM users u"
  = returns ["name"; "order_count"].
Proof. vm_compute. reflexivity. Qed.

Example scenario_insert :
  analyze "INSERT INTO users (name) VALUES ('John')" = Throw msgUnsupported.
Proof. vm_compute. reflexivity. Qed.

Example scenario_empty :
  analyze "" = Throw msgInvalid
  /\ analyzeQuery constructor JsUndefined = Throw msgInvalid
  /\ analyzeQuery constructor (JsNumber 42) = Throw msgInvalid.
Proof. repeat split. Qed.

Example test_implicit_aliases :
  analyze "SELECT name customer_name, age customer_age FROM customers"
  = returns ["customer_name"; "customer_age"].
Proof. vm_compute. reflexivity. Qed.

Example test_aggregate_functions :
  analyze "SELECT COUNT(id), SUM(amount), AVG(price), MAX(created_at) FROM orders"
  = returns ["count"; "sum"; "avg"; "max"].
Proof. vm_compute. reflexivity. Qed.

Example test_calculated_fields :
  analyze "SELECT price * quantity AS total, discount, price - discount AS final_price FROM order_items"
  = returns ["total"; "discount"; "final_price"].
Proof. vm_compute. reflexivity. Qed.

Example test_mixed_multiline :
  analyze "SELECT
                u.name AS customer_name,
                COUNT(o.id) AS total_orders,
                SUM(o.amount) total_spent,
                AVG(o.amount) AS avg_order_value,
                (SELECT COUNT(*) FROM reviews r WHERE r.user_id = u.id) review_count
            FROM users u
            LEFT JOIN orders o ON u.id = o.user_id"
  = returns ["customer_name"; "total_orders"; "total_spent"; "avg_order_value";
           "review_count"].
Proof. vm_compute. reflexivity. Qed.

Example test_nested_and_quoted :
  analyze "SELECT 'a, b FROM c' x, (SELECT m FROM t) y, f(a, b) z FROM u"
  = returns ["x"; "y"; "z"].
Proof. vm_compute. reflexivity. Qed.

(** An operator is seen only in a first token without spaces around it. *)
Example computed_expression_without_spaces :
  analyze "SELECT price*quantity FROM order_items" = Return [calculated_field].
Proof. vm_compute. reflexivity. Qed.

(** ** Invalid input *)

(** C2, counterexample: a query of three spaces is a non-empty string, so
    it passes the first test and is reported as an unsupported statement. *)
Lemma blank_query_is_unsupported :
  all is_ws (lit "   ")
  /\ analyzeQuery constructor (JsString "   ") = Throw msgUnsupported
  /\ analyzeQuery constructor (JsString "   ") <> Throw msgInvalid.
Proof.
  split; [reflexivity|]. split; [vm_compute; reflexivity|].
  vm_compute. discriminate.
Qed.

(** C2, amended: [analyzeQuery] reports "Query must be a non-empty string"
    exactly when its argument is not a string or is the empty string; a
    non-empty string of white space only is reported as "Only SELECT queries
    are supported". *)
Theorem invalid_input_exactly (this : SQLQueryAnalyzer.t) (v : JsValue) :
  (analyzeQuery this v = Throw msgInvalid
   <-> (forall s, v <> JsString s) \/ v = JsString [])
  /\ (forall s, v = JsString s -> s <> [] -> all is_ws s ->
      analyzeQuery this v = Throw msgUnsupported).
Proof.
  split; [split|].
  - intros H. destruct v; try (left; intros; discriminate).
    destruct s as [|c s]; [now right|].
    rewrite analyze_string in H by discriminate.
    destruct (isSelectQuery _); [discriminate|].
    injection H as H. now elim msg_distinct.
  - intros [H | ->]; [now apply analyze_not_string | apply analyze_empty].
  - intros s -> Hne Hws. rewrite analyze_string by assumption.
    unfold cleanQuery. rewrite (trim_blank Hws). reflexivity.
Qed.

Lemma invalid_input_exactly_witness :
  analyzeQuery constructor JsNull = Throw msgInvalid
  /\ analyzeQuery constructor (JsString " ") = Throw msgUnsupported.
Proof.
  split.
  - apply (proj1 (invalid_input_exactly constructor JsNull)).
    left. intros s. discriminate.
  - apply (proj2 (invalid_input_exactly constructor (JsString " ")) (lit " ")).
    + reflexivity.
    + discriminate.
    + reflexivity.
Defined.

(** ** Determinism *)


(** ** Names are never empty *)

Lemma analyze_return_inv (this : SQLQueryAnalyzer.t) (v : JsValue)
    (names : list str) :
  analyzeQuery this v = Return names ->
  exists q, v = JsString q
    /\ names = filter nonempty (map (extractColumnName this) (clauseSegments q)).
Proof.
  intros H.
  destruct v; try (rewrite analyze_not_string in H by (intros; discriminate);
                   discriminate).
  destruct s as [|c s]; [discriminate|].
  rewrite analyze_string in H by discriminate.
  destruct (isSelectQuery _); [|discriminate].
  injection H as <-. rewrite parseSelectColumns_eq.
  exists (c :: s). split; reflexivity.
Qed.

(** C10: every name returned is a non-empty string: the names are the
    derived names of the segments of the clause, those that are empty left
    out. *)
Theorem names_nonempty (this : SQLQueryAnalyzer.t) (v : JsValue)
    (names : list str) (H : analyzeQuery this v = Return names) :
  Forall (fun n => n <> []) names
  /\ exists q, v = JsString q
       /\ names = filter nonempty (map (extractColumnName this) (clauseSegments q)).
Proof.
  destruct (analyze_return_inv this v H) as (q & -> & ->). split.
  - apply Forall_forall. intros n Hn. apply filter_In in Hn as [_ Hn].
    now apply nonempty_true.
  - exists q. split; reflexivity.
Qed.

Lemma names_nonempty_witness :
  extractColumnName constructor "t." = []
  /\ clauseSegments "SELECT t., a FROM x" = [lit "t."; lit "a"]
  /\ Forall (fun n => n <> []) [lit "a"].
Proof.
  split; [reflexivity|]. split; [reflexivity|].
  apply (names_nonempty constructor (JsString "SELECT t., a FROM x")).
  vm_compute. reflexivity.
Defined.

(** ** The normalizer *)

Lemma is_ws_upper (c : ascii) : is_ws (upper_ch c) = is_ws c.
Proof. all_chars c. Qed.

Lemma forallb_rev (p : ascii -> bool) (s : str) :
  forallb p (rev s) = forallb p s.
Proof.
  induction s as [|c s IH]; simpl; [reflexivity|].
  rewrite forallb_app, IH. simpl. rewrite andb_true_r. apply andb_comm.
Qed.

Lemma dropWhile_snoc (p : ascii -> bool) (l : str) (c : ascii) :
  dropWhile p (l ++ [c]) =
  if forallb p l then (if p c then [] else [c]) else dropWhile p l ++ [c].
Proof.
  induction l as [|x l IH]; simpl; [reflexivity|].
  destruct (p x); simpl; [exact IH | reflexivity].
Qed.

Lemma trimEnd_nil : trimEnd [] = [].
Proof. reflexivity. Qed.

Lemma trimEnd_cons (c : ascii) (s : str) :
  trimEnd (c :: s) =
  if is_ws c && forallb is_ws s then [] else c :: trimEnd s.
Proof.
  unfold trimEnd. simpl rev. rewrite dropWhile_snoc, forallb_rev.
  destruct (forallb is_ws s) eqn:Hs.
  - rewrite andb_true_r. destruct (is_ws c); [reflexivity|].
    rewrite dropWhile_all; [reflexivity|].
    unfold all. now rewrite forallb_rev.
  - rewrite andb_false_r. rewrite rev_app_distr. reflexivity.
Qed.

Lemma dropWhile_head (p : ascii -> bool) (s : str) (c : ascii) (t : str) :
  dropWhile p s = c :: t -> p c = false.
Proof.
  induction s as [|x s IH]; simpl; [discriminate|].
  destruct (p x) eqn:Hx; [exact IH|]. intros H. injection H as <- _. exact Hx.
Qed.

Lemma words_from_nil (s cur : str) :
  words_from s cur = [] -> forallb is_ws s = true /\ cur = [].
Proof.
  revert cur. induction s as [|c s IH]; intros cur; simpl.
  - destruct cur; simpl; [auto | discriminate].
  - destruct (is_ws c); simpl.
    + destruct (nonempty cur) eqn:Hc; [discriminate|].
      intros H. apply IH in H as [H _]. apply nonempty_false in Hc. auto.
    + intros H. apply IH in H as [_ H]. now destruct cur.
Qed.

Lemma join_sp_cons (w : str) (ws : list str) :
  ws <> [] -> join_sp (w :: ws) = w ++ " "%char :: join_sp ws.
Proof. destruct ws; [intros H; now elim H | reflexivity]. Qed.

Lemma words_join_aux (s : str) :
  (forall cur, cur <> [] ->
     join_sp (words_from s cur) = cur ++ replace_ws_runs (trimEnd s) false)
  /\ (forallb is_ws s = false ->
      join_sp (words_from s []) = replace_ws_runs (trimEnd s) true)
  /\ (forallb is_ws s = true -> words_from s [] = []).
Proof.
  induction s as [|c s (IH1 & IH2 & IH3)].
  - split; [|split]; simpl; try discriminate; try reflexivity.
    intros cur Hc. apply nonempty_true in Hc. rewrite Hc. simpl.
    now rewrite app_nil_r.
  - rewrite trimEnd_cons. simpl words_from. simpl forallb.
    destruct (is_ws c) eqn:Hc; simpl andb.
    + split; [|split].
      * intros cur Hcur. apply nonempty_true in Hcur. rewrite Hcur.
        destruct (forallb is_ws s) eqn:Hs.
        -- rewrite IH3 by reflexivity. simpl. now rewrite app_nil_r.
        -- rewrite join_sp_cons.
           ++ rewrite IH2 by reflexivity. simpl. now rewrite Hc.
           ++ intros H. apply words_from_nil in H as [H _]. congruence.
      * intros Hs. rewrite Hs. simpl. rewrite Hc. now apply IH2.
      * exact IH3.
    + split; [|split]; try discriminate.
      * intros cur Hcur. rewrite IH1 by (now destruct cur).
        simpl. rewrite Hc. now rewrite <- app_assoc.
      * intros _. rewrite IH1 by discriminate. simpl. now rewrite Hc.
Qed.

Lemma words_trimStart (s : str) : words (trimStart s) = words s.
Proof.
  unfold words, trimStart. induction s as [|c s IH]; simpl; [reflexivity|].
  destruct (is_ws c) eqn:Hc; [exact IH|]. simpl. now rewrite Hc.
Qed.

Lemma replace_ws_runs_chars (s : str) (b : bool) :
  Forall (fun c => c = " "%char \/ is_ws c = false) (replace_ws_runs s b).
Proof.
  revert b. induction s as [|c s IH]; intros b; simpl; [constructor|].
  destruct (is_ws c) eqn:Hc.
  - destruct b; [apply IH|]. constructor; [now left | apply IH].
  - constructor; [now right | apply IH].
Qed.

Lemma replace_char_id (x : ascii) (s : str) :
  is_ws x = true ->
  Forall (fun c => c = " "%char \/ is_ws c = false) s ->
  replace_char x s = s.
Proof.
  intros Hx H. unfold replace_char.
  induction H as [|c s Hc _ IH]; simpl; [reflexivity|].
  rewrite IH. f_equal.
  destruct (ch_eqb c x) eqn:E; [|reflexivity].
  apply ch_eqb_eq in E. subst c. destruct Hc as [-> | Hc]; congruence.
Qed.

Lemma cleanQuery_runs (s : str) :
  cleanQuery s = replace_ws_runs (trim s) false.
Proof.
  unfold cleanQuery.
  rewrite (@replace_char_id "010"); [|reflexivity|apply replace_ws_runs_chars].
  rewrite (@replace_char_id "009"); [|reflexivity|apply replace_ws_runs_chars].
  reflexivity.
Qed.

Lemma cleanQuery_join (s : str) : cleanQuery s = join_sp (words s).
Proof.
  rewrite cleanQuery_runs, <- words_trimStart. unfold trim.
  destruct (trimStart s) as [|c t] eqn:E; [reflexivity|].
  assert (Hc : is_ws c = false) by (eapply dropWhile_head; exact E).
  rewrite trimEnd_cons, Hc. simpl. rewrite Hc.
  unfold words. simpl. rewrite Hc.
  destruct (words_join_aux t) as (H1 & _). rewrite H1 by discriminate.
  reflexivity.
Qed.

Lemma words_from_tokens (s cur : str) :
  all (fun c => negb (is_ws c)) cur -> Forall is_token (words_from s cur).
Proof.
  revert cur. induction s as [|c s IH]; intros cur Hcur; simpl.
  - destruct (nonempty cur) eqn:E; constructor; [|constructor].
    split; [now apply nonempty_true | exact Hcur].
  - destruct (is_ws c) eqn:Hc.
    + destruct (nonempty cur) eqn:E.
      * constructor; [split; [now apply nonempty_true | exact Hcur]|].
        now apply IH.
      * now apply IH.
    + apply IH. unfold all. rewrite forallb_app. simpl.
      rewrite Hc. simpl. now rewrite Hcur.
Qed.

Lemma words_tokens (s : str) : Forall is_token (words s).
Proof. now apply words_from_tokens. Qed.

Lemma words_from_concat (s cur : str) :
  concat (words_from s cur) = cur ++ filter (fun c => negb (is_ws c)) s.
Proof.
  revert cur. induction s as [|c s IH]; intros cur; simpl.
  - destruct cur; reflexivity.
  - destruct (is_ws c); simpl.
    + destruct (nonempty cur) eqn:E; simpl; rewrite IH; [reflexivity|].
      apply nonempty_false in E. now subst.
    + rewrite IH. now rewrite <- app_assoc.
Qed.

(** C8: [cleanQuery] is a total function, and its result is the words of
    the input (its maximal runs of characters other than white space, in
    order) joined by single spaces: no white space is left at either end
    and every run of white space between two words has become one space. *)
Theorem cleanQuery_normalizes (s : str) :
  cleanQuery s = join_sp (words s)
  /\ Forall is_token (words s)
  /\ concat (words s) = filter (fun c => negb (is_ws c)) s.
Proof.
  split; [apply cleanQuery_join|]. split; [apply words_tokens|].
  apply (words_from_concat s []).
Qed.

(** ** Unsupported statements *)

Lemma trimStart_id (c : ascii) (s : str) :
  is_ws c = false -> trimStart (c :: s) = c :: s.
Proof. intros H. unfold trimStart. simpl. now rewrite H. Qed.

Lemma trimEnd_snoc (s : str) (c : ascii) :
  is_ws c = false -> trimEnd (s ++ [c]) = s ++ [c].
Proof.
  intros H. unfold trimEnd. rewrite rev_app_distr. simpl. rewrite H.
  simpl. now rewrite rev_involutive.
Qed.

Lemma token_first (w : str) :
  is_token w -> exists c t, w = c :: t /\ is_ws c = false.
Proof.
  intros [Hne Hall]. destruct w as [|c t]; [now elim Hne|].
  exists c, t. split; [reflexivity|]. unfold all in Hall. simpl in Hall.
  apply andb_true_iff in Hall as [Hc _]. now apply negb_true_iff.
Qed.

Lemma token_last (w : str) :
  is_token w -> exists t c, w = t ++ [c] /\ is_ws c = false.
Proof.
  intros [Hne Hall]. destruct (exists_last Hne) as (t & c & ->).
  exists t, c. split; [reflexivity|]. unfold all in Hall.
  rewrite forallb_app in Hall. simpl in Hall.
  apply andb_true_iff in Hall as [_ Hc]. rewrite andb_true_r in Hc.
  now apply negb_true_iff.
Qed.

Lemma join_sp_last (ws : list str) :
  Forall is_token ws -> ws <> [] ->
  exists t c, join_sp ws = t ++ [c] /\ is_ws c = false.
Proof.
  intros H. induction H as [|w ws Hw Hws IH]; intros Hne; [now elim Hne|].
  destruct ws as [|w2 ws].
  - simpl. now apply token_last.
  - destruct IH as (t & c & E & Hc); [discriminate|].
    rewrite join_sp_cons by discriminate. rewrite E.
    exists (w ++ " "%char :: t), c. split; [|exact Hc].
    now rewrite <- app_assoc.
Qed.

Lemma join_sp_first (w : str) (ws : list str) :
  is_token w -> exists c t, join_sp (w :: ws) = c :: t /\ is_ws c = false.
Proof.
  intros Hw. destruct (token_first Hw) as (c & t & -> & Hc).
  destruct ws; simpl; eauto.
Qed.

Lemma trim_join (ws : list str) :
  Forall is_token ws -> trim (join_sp ws) = join_sp ws.
Proof.
  intros H. destruct ws as [|w ws]; [reflexivity|].
  unfold trim. inversion H as [|? ? Hw Hws]; subst.
  destruct (join_sp_first ws Hw) as (c & t & E & Hc).
  rewrite E, (@trimStart_id c t Hc), <- E.
  destruct (join_sp_last H) as (t' & c' & E' & Hc'); [discriminate|].
  rewrite E'. now apply trimEnd_snoc.
Qed.

Lemma toUpperCase_join (ws : list str) :
  toUpperCase (join_sp ws) = join_sp (map toUpperCase ws).
Proof.
  induction ws as [|w ws IH]; [reflexivity|].
  destruct ws as [|w2 ws]; [reflexivity|].
  change (join_sp (w :: w2 :: ws)) with (w ++ " "%char :: join_sp (w2 :: ws)).
  change (join_sp (map toUpperCase (w :: w2 :: ws)))
    with (toUpperCase w ++ " "%char :: join_sp (map toUpperCase (w2 :: ws))).
  rewrite <- IH. unfold toUpperCase. rewrite map_app. reflexivity.
Qed.

Lemma token_upper (w : str) : is_token w -> is_token (toUpperCase w).
Proof.
  intros [Hne Hall]. split.
  - destruct w; [now elim Hne | discriminate].
  - unfold all, toUpperCase in *. rewrite forallb_forall in *.
    intros c Hc. apply in_map_iff in Hc as (x & <- & Hx).
    rewrite is_ws_upper. now apply Hall.
Qed.

Lemma isSelectQuery_clean (s : str) :
  isSelectQuery (cleanQuery s) = begins_with_select (cleanQuery s).
Proof.
  unfold isSelectQuery, begins_with_select.
  rewrite cleanQuery_join, toUpperCase_join, trim_join; [reflexivity|].
  apply Forall_forall. intros w Hw. apply in_map_iff in Hw as (x & <- & Hx).
  apply token_upper. revert x Hx. apply Forall_forall, words_tokens.
Qed.




(** ** The backtracking matcher and the meaning of regular expressions *)

Section BacktrackingFacts.
Variable A : Type.
Variable p : ascii -> bool.
Variable k : str -> option A.

Lemma star_greedy_sound (s : str) (x : A) :
  star_greedy p s k = Some x ->
  exists a b, s = a ++ b /\ all p a /\ k b = Some x.
Proof.
  induction s as [|c s IH]; simpl; intros H.
  - exists [], []. now repeat split.
  - destruct (p c) eqn:Hc.
    + destruct (star_greedy p s k) as [y|] eqn:E.
      * injection H as ->. destruct (IH eq_refl) as (a & b & -> & Ha & Hk).
        exists (c :: a), b. repeat split; [|exact Hk].
        unfold all. simpl. now rewrite Hc.
      * exists [], (c :: s). now repeat split.
    + exists [], (c :: s). now repeat split.
Qed.

Lemma star_greedy_complete (a b : str) (y : A) :
  all p a -> k b = Some y -> exists x, star_greedy p (a ++ b) k = Some x.
Proof.
  intros Ha Hk. induction a as [|c a IH]; simpl.
  - destruct b as [|c b]; simpl; [eauto|].
    destruct (p c); [|eauto].
    destruct (star_greedy p b k); eauto.
  - unfold all in Ha. simpl in Ha. apply andb_true_iff in Ha as [Hc Ha].
    rewrite Hc. destruct (IH Ha) as (x & ->). eauto.
Qed.

Lemma star_lazy_sound (s : str) (x : A) :
  star_lazy p s k = Some x ->
  exists a b, s = a ++ b /\ all p a /\ k b = Some x.
Proof.
  induction s as [|c s IH]; simpl; intros H.
  - destruct (k []) eqn:E; [|discriminate]. exists [], []. repeat split; congruence.
  - destruct (k (c :: s)) eqn:E.
    + exists [], (c :: s). repeat split; congruence.
    + destruct (p c) eqn:Hc; [|discriminate].
      destruct (IH H) as (a & b & -> & Ha & Hk).
      exists (c :: a), b. repeat split; [|exact Hk].
      unfold all. simpl. now rewrite Hc.
Qed.

Lemma star_lazy_complete (a b : str) (y : A) :
  all p a -> k b = Some y -> exists x, star_lazy p (a ++ b) k = Some x.
Proof.
  intros Ha Hk. induction a as [|c a IH]; simpl.
  - destruct b as [|c b]; simpl; rewrite Hk; eauto.
  - unfold all in Ha. simpl in Ha. apply andb_true_iff in Ha as [Hc Ha].
    destruct (k (c :: a ++ b)); [eauto|]. rewrite Hc. now apply IH.
Qed.

Lemma plus_greedy_sound (s : str) (x : A) :
  plus_greedy p s k = Some x ->
  exists a b, s = a ++ b /\ a <> [] /\ all p a /\ k b = Some x.
Proof.
  destruct s as [|c s]; simpl; [discriminate|].
  destruct (p c) eqn:Hc; [|discriminate]. intros H.
  apply star_greedy_sound in H as (a & b & -> & Ha & Hk).
  exists (c :: a), b. repeat split; [discriminate| |exact Hk].
  unfold all. simpl. now rewrite Hc.
Qed.

Lemma plus_greedy_complete (a b : str) (y : A) :
  a <> [] -> all p a -> k b = Some y ->
  exists x, plus_greedy p (a ++ b) k = Some x.
Proof.
  intros Hne Ha Hk. destruct a as [|c a]; [now elim Hne|].
  unfold all in Ha. simpl in Ha. apply andb_true_iff in Ha as [Hc Ha].
  simpl. rewrite Hc. eapply star_greedy_complete; eauto.
Qed.

Lemma plus_lazy_sound (s : str) (x : A) :
  plus_lazy p s k = Some x ->
  exists a b, s = a ++ b /\ a <> [] /\ all p a /\ k b = Some x.
Proof.
  destruct s as [|c s]; simpl; [discriminate|].
  destruct (p c) eqn:Hc; [|discriminate]. intros H.
  apply star_lazy_sound in H as (a & b & -> & Ha & Hk).
  exists (c :: a), b. repeat split; [discriminate| |exact Hk].
  unfold all. simpl. now rewrite Hc.
Qed.

Lemma plus_lazy_complete (a b : str) (y : A) :
  a <> [] -> all p a -> k b = Some y ->
  exists x, plus_lazy p (a ++ b) k = Some x.
Proof.
  intros Hne Ha Hk. destruct a as [|c a]; [now elim Hne|].
  unfold all in Ha. simpl in Ha. apply andb_true_iff in Ha as [Hc Ha].
  simpl. rewrite Hc. eapply star_lazy_complete; eauto.
Qed.
End BacktrackingFacts.

Lemma firstn_matched (a b : str) :
  firstn (length (a ++ b) - length b) (a ++ b) = a.
Proof.
  rewrite length_app.
  replace (length a + length b - length b) with (length a + 0) by lia.
  rewrite firstn_app_2. simpl. apply app_nil_r.
Qed.

(** What the matcher finds is a match. *)
Lemma rx_sound (r : regex) :
  forall s caps k x,
    rx r s caps k = Some x ->
    exists a b caps',
      s = a ++ b /\ Matches r a b caps caps' /\ k b caps' = Some x.
Proof.
  induction r as [p|p|p|p|r1 IH1 r2 IH2|r1 IH1|n r1 IH1|];
    intros s caps k x H; simpl in H.
  - destruct s as [|c s]; [discriminate|].
    destruct (p c) eqn:Hc; [|discriminate].
    exists [c], s, caps. repeat split; [now constructor | exact H].
  - apply plus_greedy_sound in H as (a & b & -> & Hne & Ha & Hk).
    exists a, b, caps. repeat split; [now constructor | exact Hk].
  - apply plus_lazy_sound in H as (a & b & -> & Hne & Ha & Hk).
    exists a, b, caps. repeat split; [now constructor | exact Hk].
  - apply star_greedy_sound in H as (a & b & -> & Ha & Hk).
    exists a, b, caps. repeat split; [now constructor | exact Hk].
  - apply IH1 in H as (a1 & b1 & c1 & -> & M1 & H).
    apply IH2 in H as (a2 & b & c2 & -> & M2 & H).
    exists (a1 ++ a2), b, c2. rewrite <- app_assoc.
    repeat split; [econstructor; eassumption | exact H].
  - destruct (rx r1 s caps k) as [y|] eqn:E.
    + injection H as ->. apply IH1 in E as (a & b & c1 & -> & M & H).
      exists a, b, c1. repeat split; [now constructor | exact H].
    + exists [], s, caps. repeat split; [apply MOptNone | exact H].
  - apply IH1 in H as (a & b & c1 & -> & M & H).
    rewrite firstn_matched in H.
    exists a, b, ((n, a) :: c1). repeat split; [now constructor | exact H].
  - destruct s; [|discriminate].
    exists [], [], caps. repeat split; [constructor | exact H].
Qed.

(** Where there is a match that the continuation accepts, the matcher
    finds one. *)
Lemma rx_complete (r : regex) (a b : str) (caps caps' : captures) :
  Matches r a b caps caps' ->
  forall k y, k b caps' = Some y -> exists x, rx r (a ++ b) caps k = Some x.
Proof.
  induction 1 as [p c b caps Hc|p a b caps Hne Ha|p a b caps Hne Ha
                 |p a b caps Ha|r1 r2 a1 a2 b c0 c1 c2 M1 IH1 M2 IH2
                 |r a b c0 c1 M IH|r b c0|n r a b c0 c1 M IH|c0];
    intros k y Hk; simpl.
  - rewrite Hc. eauto.
  - eapply plus_greedy_complete; eauto.
  - eapply plus_lazy_complete; eauto.
  - eapply star_greedy_complete; eauto.
  - rewrite <- app_assoc. destruct (IH2 k y Hk) as (x2 & E2).
    eapply IH1. exact E2.
  - destruct (IH k y Hk) as (x & ->). eauto.
  - destruct (rx r b c0 k); eauto.
  - eapply IH. rewrite firstn_matched. exact Hk.
  - eauto.
Qed.

Lemma rx_match_sound (r : regex) (s : str) (caps : captures) :
  rx_match r s = Some caps -> exists a b, s = a ++ b /\ Matches r a b [] caps.
Proof.
  intros H. apply rx_sound in H as (a & b & c & -> & M & H).
  injection H as ->. eauto.
Qed.

Lemma rx_match_complete (r : regex) (a b : str) (caps : captures) :
  Matches r a b [] caps -> exists x, rx_match r (a ++ b) = Some x.
Proof. intros M. eapply rx_complete; [exact M | reflexivity]. Qed.

Lemma ci_spec (c x : ascii) : ci c x = true <-> upper_ch x = upper_ch c.
Proof. unfold ci. apply ch_eqb_eq. Qed.

Lemma ws_not_word (c : ascii) : is_ws c = true -> is_word c = false.
Proof. all_chars c. Qed.

Lemma span_unique (p : ascii -> bool) (a a' b b' : str) :
  a ++ b = a' ++ b' -> all p a -> all p a' -> stops p b -> stops p b' ->
  a = a' /\ b = b'.
Proof.
  unfold all. revert a'. induction a as [|c a IH]; intros [|c' a']; simpl;
    intros E Ha Ha' Hb Hb'.
  - auto.
  - subst b. simpl in Hb. apply andb_true_iff in Ha' as [Hc _]. congruence.
  - subst b'. simpl in Hb'. apply andb_true_iff in Ha as [Hc _]. congruence.
  - injection E as <- E. apply andb_true_iff in Ha as [_ Ha].
    apply andb_true_iff in Ha' as [_ Ha'].
    destruct (IH a' E Ha Ha' Hb Hb') as [-> ->]. auto.
Qed.

Lemma suffix_unique (p : ascii -> bool) (pre pre' a a' : str) :
  pre ++ a = pre' ++ a' -> all p a -> all p a' ->
  stops_before p pre -> stops_before p pre' ->
  pre = pre' /\ a = a'.
Proof.
  intros E Ha Ha' Hp Hp'. apply (f_equal (@rev ascii)) in E.
  rewrite !rev_app_distr in E.
  destruct (@span_unique p (rev a) (rev a') (rev pre) (rev pre') E) as [E1 E2];
    try assumption; try (unfold all; now rewrite forallb_rev).
  apply (f_equal (@rev ascii)) in E1, E2. rewrite !rev_involutive in E1, E2.
  auto.
Qed.

Lemma stops_before_snoc (p q : ascii -> bool) (pre w : str) :
  (forall c, q c = true -> p c = false) -> w <> [] -> all q w ->
  stops_before p (pre ++ w).
Proof.
  intros Hpq Hne Hw. unfold stops_before. rewrite rev_app_distr.
  destruct (exists_last Hne) as (t & c & ->).
  rewrite rev_app_distr. simpl. apply Hpq.
  unfold all in Hw. rewrite forallb_app in Hw. simpl in Hw.
  apply andb_true_iff in Hw as [_ Hc]. now rewrite andb_true_r in Hc.
Qed.

(** *** [/^(.+?)\s+AS\s+(\w+)$/i] *)

Lemma asRegex_sound (e : str) (caps : captures) :
  rx_match asRegex e = Some caps -> explicit_alias e (group 2 caps).
Proof.
  intros H. apply rx_match_sound in H as (t & b & -> & M).
  unfold asRegex in M. inv_matches. simpl group.
  match goal with
  | |- explicit_alias ((?x ++ ?w1 ++ [?a] ++ [?s] ++ ?w2 ++ ?id ++ []) ++ []) _ =>
      exists x, w1, a, s, w2
  end.
  rewrite !app_nil_r. simpl.
  repeat match goal with H : ci _ _ = true |- _ => apply ci_spec in H end.
  repeat split; assumption.
Qed.

Lemma asRegex_complete (e id : str) :
  explicit_alias e id -> exists caps, rx_match asRegex e = Some caps.
Proof.
  intros (x & w1 & a & s & w2 & -> & Hx1 & Hx2 & Hw1 & Hw1' & Ha & Hs
          & Hw2 & Hw2' & Hid & Hid').
  replace (x ++ w1 ++ [a; s] ++ w2 ++ id)
    with ((x ++ w1 ++ [a] ++ [s] ++ w2 ++ id ++ []) ++ [])
    by (now rewrite !app_nil_r).
  apply rx_match_complete with (caps := [(2, id); (1, x)]).
  unfold asRegex.
  eapply MSeq; [apply MGroup; now apply MPlusLazy|].
  eapply MSeq; [now apply MPlus|].
  eapply MSeq; [apply MChar; apply ci_spec; exact Ha|].
  eapply MSeq; [apply MChar; apply ci_spec; exact Hs|].
  eapply MSeq; [now apply MPlus|].
  eapply MSeq; [apply MGroup; now apply MPlus | apply MEnd].
Qed.

Lemma explicit_alias_unique (e id id' : str) :
  explicit_alias e id -> explicit_alias e id' -> id = id'.
Proof.
  intros (x & w1 & a & s & w2 & E & _ & _ & _ & _ & _ & _ & Hw2 & Hw2'
          & _ & Hid).
  intros (x' & w1' & a' & s' & w2' & E' & _ & _ & _ & _ & _ & _ & Hv2 & Hv2'
          & _ & Hid').
  rewrite E in E'.
  replace (x ++ w1 ++ [a; s] ++ w2 ++ id)
    with ((x ++ w1 ++ [a; s] ++ w2) ++ id) in E'
    by (now rewrite <- !app_assoc).
  replace (x' ++ w1' ++ [a'; s'] ++ w2' ++ id')
    with ((x' ++ w1' ++ [a'; s'] ++ w2') ++ id') in E'
    by (now rewrite <- !app_assoc).
  apply (@suffix_unique is_word) in E' as [_ E']; try assumption.
  - rewrite !app_assoc. now apply stops_before_snoc with (q := is_ws);
      [apply ws_not_word| |].
  - rewrite !app_assoc. now apply stops_before_snoc with (q := is_ws);
      [apply ws_not_word| |].
Qed.

Lemma asRegex_group (e id : str) :
  explicit_alias e id ->
  exists caps, rx_match asRegex e = Some caps /\ group 2 caps = id.
Proof.
  intros H. destruct (asRegex_complete H) as (caps & E). exists caps.
  split; [exact E|]. apply asRegex_sound in E.
  now apply explicit_alias_unique with (e := e).
Qed.

(** ** The explicit alias *)

(** C5, counterexample: in [a AS 1] the word after AS starts with a digit,
    and the explicit-alias rule fires and returns it. *)
Lemma alias_may_start_with_digit :
  startsWith (trim "a AS 1") "(" = false
  /\ (exists caps, rx_match asRegex "a AS 1" = Some caps)
  /\ extractColumnName constructor "a AS 1" = lit "1"
  /\ ~ identifier (lit "1")
  /\ (forall id, explicit_alias "a AS 1" id -> ~ identifier id).
Proof.
  assert (H1 : explicit_alias "a AS 1" "1").
  { exists (lit "a"), (lit " "), "A"%char, "S"%char, (lit " ").
    repeat split; try reflexivity; discriminate. }
  assert (H2 : ~ identifier (lit "1")).
  { intros [H _]. vm_compute in H. discriminate. }
  split; [reflexivity|]. split; [eexists; vm_compute; reflexivity|].
  split; [reflexivity|]. split; [exact H2|].
  intros id Hid. now rewrite (explicit_alias_unique Hid H1).
Qed.

(** C5, amended: for a column expression that does not start with [(], the
    explicit-alias rule fires exactly when the whole expression is
    [<anything> AS <word>], with AS in any letter case and the word a run
    of letters, digits and underscores that may start with a digit; the
    name returned is then that word. *)
Theorem explicit_alias_rule (this : SQLQueryAnalyzer.t) (e : str)
    (Hparen : startsWith (trim e) "(" = false) :
  ((exists caps, rx_match asRegex e = Some caps)
   <-> exists id, explicit_alias e id)
  /\ (forall id, explicit_alias e id -> extractColumnName this e = id).
Proof.
  split; [split|].
  - intros (caps & H). exists (group 2 caps). now apply asRegex_sound.
  - intros (id & H). now apply asRegex_complete with (id := id).
  - intros id H. unfold extractColumnName. rewrite Hparen.
    destruct (asRegex_group H) as (caps & -> & E). exact E.
Qed.

Lemma explicit_alias_rule_witness :
  extractColumnName constructor "price * quantity AS total" = lit "total".
Proof.
  apply (explicit_alias_rule constructor (lit "price * quantity AS total")).
  - reflexivity.
  - exists (lit "price * quantity"), (lit " "), "A"%char, "S"%char, (lit " ").
    repeat split; try reflexivity; discriminate.
Defined.

(** ** Indices *)

Lemma len_app (a b : str) : len (a ++ b) = (len a + len b)%Z.
Proof. unfold len. rewrite length_app. lia. Qed.

Lemma len_cons (c : ascii) (s : str) : len (c :: s) = (len s + 1)%Z.
Proof. unfold len. simpl length. lia. Qed.

Lemma lastIndexOf_from_notin (s : str) (c : ascii) (i found : Z) :
  ~ In c s -> lastIndexOf_from s c i found = found.
Proof.
  revert i found. induction s as [|x s IH]; intros i found H; simpl;
    [reflexivity|].
  destruct (ch_eqb x c) eqn:E.
  - apply ch_eqb_eq in E. subst. elim H. now left.
  - apply IH. intros Hin. apply H. now right.
Qed.

Lemma lastIndexOf_from_last (pre post : str) (c : ascii) (i found : Z) :
  ~ In c post ->
  lastIndexOf_from (pre ++ c :: post) c i found = (i + len pre)%Z.
Proof.
  intros H. revert i found. induction pre as [|x pre IH]; intros i found; simpl.
  - rewrite ch_eqb_refl, lastIndexOf_from_notin by assumption.
    unfold len. simpl. lia.
  - rewrite IH, len_cons. lia.
Qed.

Lemma lastIndexOf_cases (s : str) (c : ascii) :
  (~ In c s /\ lastIndexOf s c = (-1)%Z)
  \/ (exists pre post,
        s = pre ++ c :: post /\ ~ In c post /\ lastIndexOf s c = len pre).
Proof.
  assert (H : ~ In c s
              \/ exists pre post, s = pre ++ c :: post /\ ~ In c post).
  { induction s as [|x s IH]; [left; now intros []|].
    destruct IH as [IH | (pre & post & -> & Hpost)].
    - destruct (ch_eqb x c) eqn:E.
      + apply ch_eqb_eq in E. subst. right. exists [], s. auto.
      + left. intros [-> | Hin]; [|now apply IH].
        now rewrite ch_eqb_refl in E.
    - right. exists (x :: pre), post. auto. }
  destruct H as [H | (pre & post & -> & Hpost)].
  - left. split; [exact H|]. now apply lastIndexOf_from_notin.
  - right. exists pre, post. repeat split; [exact Hpost|].
    unfold lastIndexOf. rewrite lastIndexOf_from_last by assumption. lia.
Qed.

Lemma substring_from_app (a b : str) : substring_from (a ++ b) (len a) = b.
Proof.
  unfold substring_from, substring.
  assert (E1 : clamp (a ++ b) (len a) = length a).
  { unfold clamp. rewrite len_app. unfold len. lia. }
  assert (E2 : clamp (a ++ b) (len (a ++ b)) = length (a ++ b)).
  { unfold clamp, len. lia. }
  rewrite E1, E2, length_app.
  rewrite Nat.min_l, Nat.max_r by lia.
  rewrite skipn_app, skipn_all, Nat.sub_diag. simpl.
  apply firstn_all2. lia.
Qed.

Lemma substring_after (pre post : str) (c : ascii) :
  substring_from (pre ++ c :: post) (len pre + 1) = post.
Proof.
  replace (pre ++ c :: post) with ((pre ++ [c]) ++ post)
    by (now rewrite <- app_assoc).
  replace (len pre + 1)%Z with (len (pre ++ [c]))
    by (rewrite len_app; reflexivity).
  apply substring_from_app.
Qed.

(** *** [/^(?:AS\s+)?(\w+)$/i] and [/^(\w+)$/] *)

Lemma subqueryAsRegex_sound (t : str) (caps : captures) :
  rx_match subqueryAsRegex t = Some caps ->
  as_then_word t (group 1 caps) \/ (bare_word t /\ group 1 caps = t).
Proof.
  intros H. apply rx_match_sound in H as (u & b & -> & M).
  unfold subqueryAsRegex in M. inv_matches; simpl group; rewrite !app_nil_r.
  - left.
    match goal with
    | |- as_then_word (([?a] ++ [?s] ++ ?w) ++ ?id) _ => exists a, s, w
    end.
    repeat match goal with H : ci _ _ = true |- _ => apply ci_spec in H end.
    rewrite <- !app_assoc. repeat split; assumption.
  - right. simpl. repeat split; assumption.
Qed.



Lemma implicitRegex_sound (t : str) (caps : captures) :
  rx_match implicitRegex t = Some caps -> bare_word t /\ group 1 caps = t.
Proof.
  intros H. apply rx_match_sound in H as (u & b & -> & M).
  unfold implicitRegex in M. inv_matches. simpl group. rewrite !app_nil_r.
  repeat split; assumption.
Qed.




(** ** The subquery rule *)



(** A word after the subquery may start with a digit. *)
Example subquery_word_may_start_with_digit :
  extractColumnName constructor "(SELECT 1) 2nd" = lit "2nd"
  /\ extractColumnName constructor "(SELECT 1) AS 2nd" = lit "2nd"
  /\ extractColumnName constructor "(SELECT 1) + 2" = subquery_result
  /\ extractColumnName constructor "(a + b" = subquery_result.
Proof. repeat split. Qed.


(** ** When a derived name is empty *)

Lemma subqueryName_nonempty (e : str) : subqueryName e <> [].
Proof.
  unfold subqueryName.
  destruct (negb _); [|discriminate].
  destruct (nonempty _); [|discriminate].
  destruct (rx_match subqueryAsRegex _) as [caps|] eqn:E.
  - apply subqueryAsRegex_sound in E as [E | [[E _] ->]]; [|exact E].
    destruct E as (a & s & w & _ & _ & _ & _ & _ & E & _). exact E.
  - destruct (rx_match implicitRegex _) as [caps|] eqn:E'; [|discriminate].
    apply implicitRegex_sound in E' as [[E' _] ->]. exact E'.
Qed.

Lemma asRegex_group_nonempty (e : str) (caps : captures) :
  rx_match asRegex e = Some caps -> group 2 caps <> [].
Proof.
  intros H. apply asRegex_sound in H.
  destruct H as (x & w1 & a & s & w2 & _ & _ & _ & _ & _ & _ & _ & _ & _ & H & _).
  exact H.
Qed.

Lemma identRegex_nonempty (s : str) : rx_test identRegex s = true -> s <> [].
Proof.
  unfold rx_test. destruct (rx_match identRegex s) as [caps|] eqn:E;
    [|discriminate].
  intros _. apply rx_match_sound in E as (u & b & -> & M).
  unfold identRegex in M. inv_matches. discriminate.
Qed.

Lemma funcRegex_group_nonempty (s : str) (caps : captures) :
  rx_match funcRegex s = Some caps -> group 1 caps <> [].
Proof.
  intros E. apply rx_match_sound in E as (u & b & -> & M).
  unfold funcRegex in M. inv_matches. simpl. assumption.
Qed.

Lemma lastChar_snoc (s : str) (c : ascii) : lastChar (s ++ [c]) = Some c.
Proof. unfold lastChar. now rewrite rev_app_distr. Qed.

Lemma baseName_empty (b : str) :
  baseName b = [] -> b = [] \/ lastChar b = Some "."%char.
Proof.
  unfold baseName. destruct (rx_match funcRegex b) as [caps|] eqn:E.
  - intros H. apply funcRegex_group_nonempty in E.
    unfold toLowerCase in H. apply map_eq_nil in H. contradiction.
  - destruct (lastIndexOf_cases b ".") as [[_ ->] | (pre & post & -> & _ & ->)].
    + simpl. destruct (operatorTest b); [discriminate | auto].
    + replace (negb (len pre =? -1)%Z) with true
        by (symmetry; apply negb_true_iff, Z.eqb_neq; unfold len; lia).
      rewrite substring_after. intros ->. right. apply lastChar_snoc.
Qed.

Lemma split_ws_from_head (s cur : str) (b : bool) :
  cur <> [] -> firstOf (split_ws_from s cur b) <> [].
Proof.
  revert cur b. induction s as [|c s IH]; intros cur b Hcur; simpl;
    [exact Hcur|].
  destruct (is_ws c).
  - destruct b; [now apply IH | exact Hcur].
  - apply IH. now destruct cur.
Qed.

Lemma split_ws_first (c : ascii) (t : str) :
  is_ws c = false -> firstOf (split_ws (c :: t)) <> [].
Proof.
  intros H. unfold split_ws. simpl. rewrite H.
  apply split_ws_from_head. discriminate.
Qed.

Lemma trim_head (s : str) (c : ascii) (t : str) :
  trim s = c :: t -> is_ws c = false.
Proof.
  unfold trim. destruct (trimStart s) as [|x u] eqn:E; [discriminate|].
  assert (Hx : is_ws x = false) by (eapply dropWhile_head; exact E).
  rewrite trimEnd_cons, Hx. simpl. intros H. now injection H as <- _.
Qed.

Lemma extractColumnName_nil (this : SQLQueryAnalyzer.t) :
  extractColumnName this [] = [].
Proof. reflexivity. Qed.

(** A segment that is not empty and starts with no white space has an
    empty derived name only by the table-qualified rule, its first token
    ending in a dot. *)
Lemma extractColumnName_empty (this : SQLQueryAnalyzer.t) (c : ascii) (t : str) :
  is_ws c = false ->
  extractColumnName this (c :: t) = [] ->
  lastChar (firstOf (split_ws (c :: t))) = Some "."%char.
Proof.
  intros Hc. unfold extractColumnName.
  destruct (startsWith _ _).
  - intros H. now elim (@subqueryName_nonempty (c :: t)).
  - destruct (rx_match asRegex (c :: t)) as [caps|] eqn:E.
    + intros H. now elim (@asRegex_group_nonempty (c :: t) caps E).
    + destruct (_ && rx_test identRegex _) eqn:E2.
      * apply andb_true_iff in E2 as [_ E2].
        apply identRegex_nonempty in E2. contradiction.
      * intros H. apply baseName_empty in H as [H | H]; [|exact H].
        now elim (@split_ws_first c t Hc).
Qed.

Lemma filter_map_length (A B : Type) (f : A -> B) (p : B -> bool) (l : list A) :
  length (filter p (map f l)) = length (filter (fun x => p (f x)) l).
Proof.
  induction l as [|x l IH]; simpl; [reflexivity|].
  destruct (p (f x)); simpl; now rewrite IH.
Qed.

Lemma filter_length_le (A : Type) (p q : A -> bool) (l : list A) :
  (forall x, p x = true -> q x = true) ->
  length (filter p l) <= length (filter q l).
Proof.
  intros H. induction l as [|x l IH]; simpl; [lia|].
  destruct (p x) eqn:E.
  - rewrite (H x E). simpl. lia.
  - destruct (q x); simpl; lia.
Qed.

(** ** The number of names *)

(** C3, counterexample: the clause of [SELECT t., a FROM x] has the two
    non-empty segments [t.] and [a], and one name is returned. *)
Lemma dotted_segment_is_omitted :
  analyzeQuery constructor (JsString "SELECT t., a FROM x") = Return [lit "a"]
  /\ filter nonempty (clauseSegments "SELECT t., a FROM x") = [lit "t."; lit "a"]
  /\ length [lit "a"]
     <> length (filter nonempty (clauseSegments "SELECT t., a FROM x")).
Proof.
  split; [vm_compute; reflexivity|]. split; [vm_compute; reflexivity|].
  vm_compute. discriminate.
Qed.

(** C3, amended: the number of names returned is the number of top-level
    comma-separated segments of the SELECT clause whose derived name is not
    empty; it is at most the number of non-empty segments, an empty segment
    contributing nothing, and a non-empty segment contributes one name
    unless its derived name is empty, which happens only when its first
    token ends in a dot. *)
Theorem names_count (this : SQLQueryAnalyzer.t) (v : JsValue)
    (names : list str) (H : analyzeQuery this v = Return names) :
  exists q, v = JsString q
    /\ length names =
       length (filter (fun seg => nonempty (extractColumnName this seg))
                 (clauseSegments q))
    /\ length names <= length (filter nonempty (clauseSegments q))
    /\ (forall seg, In seg (clauseSegments q) -> seg <> [] ->
        extractColumnName this seg = [] ->
        lastChar (firstOf (split_ws seg)) = Some "."%char).
Proof.
  destruct (analyze_return_inv this v H) as (q & -> & ->).
  exists q. split; [reflexivity|].
  rewrite filter_map_length. split; [reflexivity|]. split.
  - apply filter_length_le. intros seg Hseg. apply nonempty_true.
    intros ->. now rewrite extractColumnName_nil in Hseg.
  - intros seg Hin Hne Hname. unfold clauseSegments in Hin.
    apply in_map_iff in Hin as (s & <- & _).
    destruct (trim s) as [|c t] eqn:E; [now elim Hne|].
    apply trim_head in E. now apply extractColumnName_empty with (this := this).
Qed.

Lemma names_count_witness :
  exists q, JsString "SELECT a,, b.c, t. FROM x" = JsString q
    /\ length [lit "a"; lit "c"] =
       length (filter (fun seg => nonempty (extractColumnName constructor seg))
                 (clauseSegments q))
    /\ length [lit "a"; lit "c"] <= length (filter nonempty (clauseSegments q))
    /\ (forall seg, In seg (clauseSegments q) -> seg <> [] ->
        extractColumnName constructor seg = [] ->
        lastChar (firstOf (split_ws seg)) = Some "."%char).
Proof.
  apply (names_count constructor (JsString "SELECT a,, b.c, t. FROM x")).
  vm_compute. reflexivity.
Defined.

(** ** The scanner: clause boundary and column splitting *)

Lemma inQuotes_track (c : ascii) (st : scan) :
  inQuotes (trackParentheses c st) = inQuotes st.
Proof.
  unfold trackParentheses. destruct (ch_eqb c "("); [reflexivity|].
  now destruct (ch_eqb c ")").
Qed.

Lemma topLevel_step (c : ascii) (prev : option ascii) (st : scan) :
  topLevel (scanStep c prev st) =
  negb (inQuotes (handleQuotes c prev st))
  && (parenthesesLevel (trackParentheses c (handleQuotes c prev st)) =? 0)%Z.
Proof.
  unfold scanStep, topLevel.
  destruct (inQuotes (handleQuotes c prev st)) eqn:E; simpl.
  - now rewrite E.
  - now rewrite inQuotes_track, E.
Qed.

Lemma findSelectEnd_step (c : ascii) (rest : str) (prev : option ascii)
    (i qlen : Z) (st : scan) :
  findSelectEnd (c :: rest) prev i qlen st =
  if (i <? qlen - 4)%Z then
    if topLevel (scanStep c prev st)
       && startsWith (toUpperCase (c :: rest)) " FROM "
    then i
    else findSelectEnd rest (Some c) (i + 1) qlen (scanStep c prev st)
  else qlen.
Proof.
  simpl findSelectEnd. destruct (i <? qlen - 4)%Z; [|reflexivity].
  rewrite topLevel_step. unfold scanStep.
  now destruct (inQuotes (handleQuotes c prev st)).
Qed.

Lemma findSelectEnd_spec (rest : str) :
  forall (prev : option ascii) (i qlen : Z) (st : scan),
    (findSelectEnd rest prev i qlen st = qlen
     \/ exists k,
          findSelectEnd rest prev i qlen st = (i + Z.of_nat k)%Z
          /\ k < length rest
          /\ (i + Z.of_nat k < qlen - 4)%Z
          /\ topLevel (scanRun rest prev st (S k)) = true
          /\ startsWith (toUpperCase (skipn k rest)) " FROM " = true)
    /\ (forall k,
          k < length rest ->
          (i + Z.of_nat k < findSelectEnd rest prev i qlen st)%Z ->
          (i + Z.of_nat k < qlen - 4)%Z ->
          topLevel (scanRun rest prev st (S k))
          && startsWith (toUpperCase (skipn k rest)) " FROM " = false).
Proof.
  induction rest as [|c rest IH]; intros prev i qlen st.
  - split; [now left|]. intros k Hk. simpl in Hk. lia.
  - rewrite findSelectEnd_step.
    destruct (i <? qlen - 4)%Z eqn:Hi.
    + destruct (topLevel (scanStep c prev st)
                && startsWith (toUpperCase (c :: rest)) " FROM ") eqn:Hc.
      * apply andb_true_iff in Hc as [Hc1 Hc2]. split.
        -- right. exists 0. apply Z.ltb_lt in Hi.
           repeat split; simpl; try assumption; lia.
        -- intros k _ Hk. lia.
      * destruct (IH (Some c) (i + 1)%Z qlen (scanStep c prev st))
          as [IH1 IH2]. split.
        -- destruct IH1 as [IH1 | (k & E & Hk & Hlt & Ht & Hf)];
             [now left|].
           right. exists (S k). repeat split; simpl; try assumption; lia.
        -- intros [|k] Hk Hlt Hlt4; [exact Hc|].
           simpl. apply IH2; simpl in Hk; lia.
    + apply Z.ltb_ge in Hi. split; [now left|]. intros k _ _ Hk. lia.
Qed.






Lemma splitLoop_step (c : ascii) (rest : str) (prev : option ascii)
    (parts : list str) (cur : str) (st : scan) :
  splitLoop (c :: rest) prev parts cur st =
  if topLevelComma (c, scanStep c prev st) then
    splitLoop rest (Some c) (parts ++ [trim cur]) [] (scanStep c prev st)
  else splitLoop rest (Some c) parts (cur ++ [c]) (scanStep c prev st).
Proof.
  simpl splitLoop. unfold topLevelComma. simpl fst. simpl snd.
  rewrite topLevel_step. unfold scanStep.
  destruct (inQuotes (handleQuotes c prev st)); simpl.
  - now rewrite andb_false_r.
  - reflexivity.
Qed.

Lemma split_on_nonempty (A : Type) (P : A -> bool) (l cur : list A) :
  split_on P l cur <> [].
Proof.
  revert cur. induction l as [|x l IH]; intros cur; simpl; [discriminate|].
  destruct (P x); [discriminate | apply IH].
Qed.

Lemma removelast_cons (A : Type) (x : A) (l : list A) :
  l <> [] -> removelast (x :: l) = x :: removelast l.
Proof. destruct l; [intros H; now elim H | reflexivity]. Qed.

Lemma last_cons (A : Type) (x d : A) (l : list A) :
  l <> [] -> last (x :: l) d = last l d.
Proof. destruct l; [intros H; now elim H | reflexivity]. Qed.

Lemma map_nonempty (A B : Type) (f : A -> B) (l : list A) :
  l <> [] -> map f l <> [].
Proof. destruct l; [intros H; now elim H | discriminate]. Qed.

(** The loop of [splitSelectColumns] cuts at the top-level commas. *)
Lemma splitLoop_spec (rest : str) :
  forall (prev : option ascii) (parts : list str) (cur : str) (st : scan)
         (curA : list (ascii * scan)),
    map fst curA = cur ->
    splitLoop rest prev parts cur st =
    (parts ++ map trim (removelast
                (map (map fst) (split_on topLevelComma (annotate rest prev st) curA))),
     last (map (map fst) (split_on topLevelComma (annotate rest prev st) curA)) []).
Proof.
  induction rest as [|c rest IH]; intros prev parts cur st curA Hcur.
  - simpl. now rewrite app_nil_r, Hcur.
  - rewrite splitLoop_step. cbn [annotate split_on].
    destruct (topLevelComma (c, scanStep c prev st)).
    + rewrite (IH (Some c) (parts ++ [trim cur]) [] (scanStep c prev st) [])
        by reflexivity.
      cbn [map]. rewrite Hcur.
      rewrite removelast_cons, last_cons
        by (apply map_nonempty, split_on_nonempty).
      cbn [map]. now rewrite <- app_assoc.
    + apply IH. rewrite map_app, Hcur. reflexivity.
Qed.

Lemma removelast_map (A B : Type) (f : A -> B) (l : list A) :
  removelast (map f l) = map f (removelast l).
Proof.
  induction l as [|x l IH]; [reflexivity|].
  destruct l as [|y l]; [reflexivity|].
  change (removelast (map f (x :: y :: l)))
    with (f x :: removelast (map f (y :: l))).
  now rewrite IH.
Qed.

Lemma last_map_trim (l : list str) : last (map trim l) [] = trim (last l []).
Proof.
  induction l as [|x l IH]; [reflexivity|].
  destruct l as [|y l]; [reflexivity|].
  change (last (map trim (x :: y :: l)) [])
    with (last (map trim (y :: l)) []).
  now rewrite IH.
Qed.

Lemma splitSelectColumns_segments (clause : str) :
  splitSelectColumns clause = dropBlankLast (map trim (segments clause)).
Proof.
  unfold splitSelectColumns, dropBlankLast, segments.
  rewrite (@splitLoop_spec clause None [] [] scan0 []) by reflexivity.
  set (ps := map (map fst) (split_on topLevelComma (annotate clause None scan0) [])).
  assert (Hps : ps <> []) by (apply map_nonempty, split_on_nonempty).
  rewrite last_map_trim. cbn [app]. unfold str in *.
  destruct (nonempty (trim (last ps []))).
  - change [trim (last ps [])] with (map trim [last ps []]).
    rewrite <- map_app. f_equal. symmetry. now apply app_removelast_last.
  - now rewrite removelast_map.
Qed.



Lemma split_on_length (A : Type) (P : A -> bool) (l cur : list A) :
  length (split_on P l cur) = S (length (filter P l)).
Proof.
  revert cur. induction l as [|x l IH]; intros cur; simpl; [reflexivity|].
  destruct (P x); simpl; now rewrite IH.
Qed.



Lemma scanStep_neutral (c : ascii) (prev : option ascii) (st : scan) :
  ch_eqb c dquote = false -> ch_eqb c squote = false ->
  ch_eqb c "(" = false -> ch_eqb c ")" = false ->
  scanStep c prev st = st.
Proof.
  intros H1 H2 H3 H4. unfold scanStep, handleQuotes, trackParentheses.
  rewrite H1, H2, H3, H4. simpl. now destruct (inQuotes st).
Qed.



(** * Further properties of the program *)

(** ** Normalization and white space *)

Lemma words_from_free (w s cur : str) :
  ws_free w -> words_from (w ++ s) cur = words_from s (cur ++ w).
Proof.
  revert cur. induction w as [|c w IH]; intros cur Hw; simpl.
  - now rewrite app_nil_r.
  - unfold ws_free, all in Hw. simpl in Hw.
    apply andb_true_iff in Hw as [Hc Hw]. apply negb_true_iff in Hc.
    rewrite Hc, IH by exact Hw. now rewrite <- app_assoc.
Qed.

Lemma words_token (w : str) : is_token w -> words w = [w].
Proof.
  intros [Hne Hw]. unfold words.
  replace w with (w ++ []) at 1 by apply app_nil_r.
  rewrite words_from_free by exact Hw. simpl.
  now rewrite (proj2 (nonempty_true w) Hne).
Qed.

(** The words of a text made of tokens and single spaces are the tokens. *)
Lemma words_join (toks : list str) :
  Forall is_token toks -> words (join_sp toks) = toks.
Proof.
  induction 1 as [|w toks Hw Htoks IH]; [reflexivity|].
  destruct toks as [|w2 toks]; [now apply words_token|].
  change (join_sp (w :: w2 :: toks)) with (w ++ " "%char :: join_sp (w2 :: toks)).
  unfold words. rewrite words_from_free by apply Hw. simpl.
  rewrite (proj2 (nonempty_true w) (proj1 Hw)). f_equal. exact IH.
Qed.

(** X1: [cleanQuery] is idempotent and keeps the words of the text; a text
    made of tokens and single spaces is left as it is. *)
Theorem cleanQuery_idempotent (s : str) :
  cleanQuery (cleanQuery s) = cleanQuery s
  /\ words (cleanQuery s) = words s
  /\ (forall toks, Forall is_token toks ->
        cleanQuery (join_sp toks) = join_sp toks).
Proof.
  assert (H : words (cleanQuery s) = words s).
  { rewrite cleanQuery_join. apply words_join, words_tokens. }
  split; [|split; [exact H|]].
  - rewrite (cleanQuery_join (cleanQuery s)), H. symmetry. apply cleanQuery_join.
  - intros toks Ht. now rewrite cleanQuery_join, words_join.
Qed.

Lemma cleanQuery_words (s s' : str) :
  words s = words s' -> cleanQuery s = cleanQuery s'.
Proof. intros H. now rewrite !cleanQuery_join, H. Qed.

(** X2: white space is insignificant: two non-empty query texts with the
    same words, whatever white space separates and surrounds them, have
    the same outcome. *)
Theorem whitespace_insignificant (this : SQLQueryAnalyzer.t) (s s' : str)
    (Hs : s <> []) (Hs' : s' <> []) (Hw : words s = words s') :
  analyzeQuery this (JsString s) = analyzeQuery this (JsString s').
Proof.
  rewrite !analyze_string by assumption.
  now rewrite (cleanQuery_words s s' Hw).
Qed.

Lemma whitespace_insignificant_witness :
  analyzeQuery constructor (JsString "  select   a ,
	b
  from t ")
  = analyzeQuery constructor (JsString "select a , b from t").
Proof.
  apply whitespace_insignificant.
  - discriminate.
  - discriminate.
  - vm_compute. reflexivity.
Defined.

(** ** Names are free of white space *)

Lemma word_not_ws (c : ascii) : is_word c = true -> is_ws c = false.
Proof. all_chars c. Qed.

Lemma is_ws_lower (c : ascii) : is_ws (lower_ch c) = is_ws c.
Proof. all_chars c. Qed.

Lemma all_impl (p q : ascii -> bool) (s : str) :
  (forall c, p c = true -> q c = true) -> all p s -> all q s.
Proof.
  unfold all. intros H Hs. rewrite forallb_forall in *. auto.
Qed.

Lemma word_ws_free (s : str) : all is_word s -> ws_free s.
Proof.
  apply all_impl. intros c Hc. apply negb_true_iff. now apply word_not_ws.
Qed.

Lemma ws_free_app (a b : str) : ws_free (a ++ b) <-> ws_free a /\ ws_free b.
Proof.
  unfold ws_free, all. rewrite forallb_app. apply andb_true_iff.
Qed.

Lemma ws_free_firstn (n : nat) (s : str) : ws_free s -> ws_free (firstn n s).
Proof.
  intros H. rewrite <- (firstn_skipn n s) in H. now apply ws_free_app in H.
Qed.

Lemma ws_free_skipn (n : nat) (s : str) : ws_free s -> ws_free (skipn n s).
Proof.
  intros H. rewrite <- (firstn_skipn n s) in H. now apply ws_free_app in H.
Qed.

Lemma ws_free_substring (s : str) (a b : Z) :
  ws_free s -> ws_free (substring s a b).
Proof. intros H. unfold substring. now apply ws_free_firstn, ws_free_skipn. Qed.

Lemma ws_free_lower (s : str) : ws_free s -> ws_free (toLowerCase s).
Proof.
  unfold ws_free, all, toLowerCase. rewrite !forallb_forall.
  intros H c Hc. apply in_map_iff in Hc as (x & <- & Hx).
  rewrite is_ws_lower. now apply H.
Qed.

Lemma split_ws_from_free (s cur : str) (b : bool) :
  ws_free cur -> Forall ws_free (split_ws_from s cur b).
Proof.
  revert cur b. induction s as [|c s IH]; intros cur b Hcur; simpl.
  - now constructor.
  - destruct (is_ws c) eqn:Hc.
    + destruct b; [now apply IH|].
      constructor; [exact Hcur | now apply IH].
    + apply IH. apply ws_free_app. split; [exact Hcur|].
      unfold ws_free, all. simpl. now rewrite Hc.
Qed.

Lemma split_ws_free (s : str) : Forall ws_free (split_ws s).
Proof. now apply split_ws_from_free. Qed.

Lemma Forall_last (A : Type) (P : A -> Prop) (l : list A) (d : A) :
  P d -> Forall P l -> P (last l d).
Proof.
  intros Hd H. induction H as [|x l Hx Hl IH]; [exact Hd|].
  destruct l; [exact Hx | exact IH].
Qed.

Lemma Forall_hd (A : Type) (P : A -> Prop) (l : list A) (d : A) :
  P d -> Forall P l -> P (hd d l).
Proof. intros Hd H. destruct H; assumption. Qed.

Lemma subqueryName_ws_free (e : str) : ws_free (subqueryName e).
Proof.
  unfold subqueryName.
  destruct (negb _); [|reflexivity].
  destruct (nonempty _); [|reflexivity].
  destruct (rx_match subqueryAsRegex _) as [caps|] eqn:E.
  - apply subqueryAsRegex_sound in E as [E | [[_ E] ->]].
    + destruct E as (a & s & w & _ & _ & _ & _ & _ & _ & E).
      now apply word_ws_free.
    + now apply word_ws_free.
  - destruct (rx_match implicitRegex _) as [caps|] eqn:E'; [|reflexivity].
    apply implicitRegex_sound in E' as [[_ E'] ->]. now apply word_ws_free.
Qed.

Lemma funcRegex_group_word (s : str) (caps : captures) :
  rx_match funcRegex s = Some caps -> all is_word (group 1 caps).
Proof.
  intros E. apply rx_match_sound in E as (u & b & -> & M).
  unfold funcRegex in M. inv_matches. simpl. assumption.
Qed.

Lemma baseName_ws_free (b : str) : ws_free b -> ws_free (baseName b).
Proof.
  intros Hb. unfold baseName.
  destruct (rx_match funcRegex b) as [caps|] eqn:E.
  - apply ws_free_lower, word_ws_free. now apply funcRegex_group_word with (s := b).
  - destruct (negb _); [now apply ws_free_substring|].
    destruct (operatorTest b); [reflexivity | exact Hb].
Qed.

Lemma extractColumnName_ws_free (this : SQLQueryAnalyzer.t) (e : str) :
  ws_free (extractColumnName this e).
Proof.
  unfold extractColumnName.
  destruct (startsWith _ _); [apply subqueryName_ws_free|].
  destruct (rx_match asRegex e) as [caps|] eqn:E.
  - apply asRegex_sound in E.
    destruct E as (x & w1 & a & s & w2 & _ & _ & _ & _ & _ & _ & _ & _ & _ & _ & E).
    now apply word_ws_free.
  - destruct (_ && rx_test identRegex _).
    + unfold lastOf. apply Forall_last; [reflexivity | apply split_ws_free].
    + apply baseName_ws_free. unfold firstOf.
      apply Forall_hd; [reflexivity | apply split_ws_free].
Qed.

(** X3: no name that [analyzeQuery] returns, and no name that
    [extractColumnName] derives from any text, contains a white-space
    character. *)
Theorem names_ws_free (this : SQLQueryAnalyzer.t) (v : JsValue)
    (cols : list str) (H : analyzeQuery this v = Return cols) :
  Forall ws_free cols /\ (forall e, ws_free (extractColumnName this e)).
Proof.
  split; [|apply extractColumnName_ws_free].
  destruct (analyze_return_inv this v H) as (q & _ & ->).
  apply Forall_forall. intros n Hn. apply filter_In in Hn as [Hn _].
  apply in_map_iff in Hn as (seg & <- & _). apply extractColumnName_ws_free.
Qed.

Lemma names_ws_free_witness :
  Forall ws_free [lit "total_spent"; lit "cast"].
Proof.
  apply (names_ws_free constructor
           (JsString "SELECT SUM(o.amount)   total_spent, CAST( x AS int ) FROM orders o")).
  vm_compute. reflexivity.
Defined.

(** ** The implicit alias *)

Lemma identRegex_spec (t : str) : rx_test identRegex t = true <-> identifier t.
Proof.
  unfold rx_test. split.
  - destruct (rx_match identRegex t) as [caps|] eqn:E; [|discriminate].
    intros _. apply rx_match_sound in E as (u & b & -> & M).
    unfold identRegex in M. inv_matches. rewrite !app_nil_r. simpl.
    split; assumption.
  - destruct t as [|c t]; [intros []|]. intros [Hc Ht].
    replace (c :: t) with (([c] ++ t ++ []) ++ [])
      by (rewrite !app_nil_r; reflexivity).
    destruct (@rx_match_complete identRegex ([c] ++ t ++ []) [] []) as (x & ->);
      [|reflexivity].
    unfold identRegex.
    eapply MSeq; [now apply MChar|].
    eapply MSeq; [now apply MStar | apply MEnd].
Qed.

Lemma has_In (set : list str) (x : str) : has set x = true <-> In x set.
Proof.
  unfold has. rewrite existsb_exists. split.
  - intros (y & Hy & E). apply str_eqb_eq in E. now subst.
  - intros H. exists x. split; [exact H | now apply str_eqb_eq].
Qed.

Lemma split_words_aux (s : str) :
  trimEnd s = s ->
  (forall cur, cur <> [] -> split_ws_from s cur false = words_from s cur)
  /\ (s <> [] -> split_ws_from s [] true = words_from s []).
Proof.
  induction s as [|c s IH]; intros Ht.
  - split; [|intros H; now elim H]. intros cur Hcur. simpl.
    now rewrite (proj2 (nonempty_true cur) Hcur).
  - rewrite trimEnd_cons in Ht.
    destruct (is_ws c && forallb is_ws s) eqn:E; [discriminate|].
    injection Ht as Ht. destruct (IH Ht) as [IH1 IH2]. simpl.
    destruct (is_ws c) eqn:Hc; simpl in E.
    + assert (Hs : s <> []) by (intros ->; discriminate).
      split.
      * intros cur Hcur. rewrite (proj2 (nonempty_true cur) Hcur).
        f_equal. now apply IH2.
      * intros _. simpl. now apply IH2.
    + split.
      * intros cur Hcur. apply IH1. now destruct cur.
      * intros _. apply IH1. discriminate.
Qed.

Lemma trim_fixed (e : str) :
  trim e = e -> e <> [] ->
  exists c t, e = c :: t /\ is_ws c = false /\ trimEnd e = e.
Proof.
  intros Ht Hne. destruct e as [|c t]; [now elim Hne|].
  assert (Hc : is_ws c = false) by (eapply trim_head; exact Ht).
  exists c, t. split; [reflexivity|]. split; [exact Hc|].
  unfold trim in Ht. now rewrite (@trimStart_id c t Hc) in Ht.
Qed.

(** On a trimmed text, [split(/\s+/)] gives the words. *)
Lemma split_ws_words (e : str) :
  trim e = e -> e <> [] -> split_ws e = words e.
Proof.
  intros Ht Hne. destruct (trim_fixed Ht Hne) as (c & t & -> & Hc & Hend).
  unfold split_ws, words. simpl. rewrite Hc.
  rewrite trimEnd_cons, Hc in Hend. simpl in Hend. injection Hend as Hend.
  destruct (split_words_aux Hend) as [H _]. apply H. discriminate.
Qed.

(** X4: the implicit-alias rule.  For a trimmed column expression that does
    not start with [(] and has no explicit alias: when it has two words or
    more and the last one is an identifier that is not a keyword in any
    letter case, the name is that last word; otherwise the name is derived
    from the first word alone. *)
Theorem implicit_alias_rule (this : SQLQueryAnalyzer.t) (e : str)
    (Htrim : trim e = e) (Hne : e <> [])
    (Hparen : startsWith e "(" = false)
    (Hnoas : forall id, ~ explicit_alias e id) :
  (2 <= length (words e) ->
   identifier (last (words e) []) ->
   ~ In (toUpperCase (last (words e) [])) (sqlKeywords this) ->
   extractColumnName this e = last (words e) [])
  /\ (length (words e) < 2
      \/ ~ identifier (last (words e) [])
      \/ In (toUpperCase (last (words e) [])) (sqlKeywords this) ->
      extractColumnName this e = baseName (hd [] (words e))).
Proof.
  unfold extractColumnName. rewrite Htrim, Hparen.
  destruct (rx_match asRegex e) as [caps|] eqn:E.
  { apply asRegex_sound in E. now elim (Hnoas _ E). }
  rewrite (split_ws_words Htrim Hne). unfold lastOf, firstOf.
  split.
  - intros Hlen Hid Hkw.
    apply Nat.leb_le in Hlen. rewrite Hlen.
    apply identRegex_spec in Hid. rewrite Hid.
    destruct (has (sqlKeywords this) _) eqn:Hh; [|reflexivity].
    apply has_In in Hh. contradiction.
  - intros [Hlen | [Hid | Hkw]].
    + apply Nat.leb_gt in Hlen. now rewrite Hlen.
    + destruct (rx_test identRegex _) eqn:Hr.
      * apply identRegex_spec in Hr. contradiction.
      * now rewrite andb_false_r.
    + apply has_In in Hkw. rewrite Hkw. simpl. now rewrite andb_false_r.
Qed.

Lemma implicit_alias_rule_witness :
  extractColumnName constructor "LENGTH(description) desc_length" = lit "desc_length"
  /\ extractColumnName constructor "u.name from" = baseName "u.name".
Proof.
  assert (Hno : forall e, rx_match asRegex e = None ->
                forall id, ~ explicit_alias e id).
  { intros e H id Hid. apply asRegex_group in Hid as (caps & Hc & _).
    congruence. }
  split.
  - refine (proj1 (@implicit_alias_rule constructor
                     (lit "LENGTH(description) desc_length")
                     eq_refl _ eq_refl
                     (Hno (lit "LENGTH(description) desc_length") eq_refl))
                  _ _ _).
    + discriminate.
    + vm_compute. lia.
    + vm_compute. split; reflexivity.
    + vm_compute. intuition discriminate.
  - refine (proj2 (@implicit_alias_rule constructor (lit "u.name from")
                     eq_refl _ eq_refl (Hno (lit "u.name from") eq_refl)) _).
    + discriminate.
    + right. right. vm_compute. tauto.
Defined.

(** ** The rules on the first token *)

Lemma explicit_alias_not_ws_free (e id : str) :
  explicit_alias e id -> ~ ws_free e.
Proof.
  intros (x & w1 & a & s & w2 & -> & _ & _ & Hne & Hw1 & _) H.
  apply ws_free_app in H as [_ H]. apply ws_free_app in H as [H _].
  destruct w1 as [|c w1]; [now elim Hne|].
  unfold ws_free, all in H, Hw1. simpl in H, Hw1.
  apply andb_true_iff in H as [H _]. apply andb_true_iff in Hw1 as [Hw1 _].
  rewrite Hw1 in H. discriminate.
Qed.

Lemma split_ws_from_token (s cur : str) (b : bool) :
  ws_free s -> split_ws_from s cur b = [cur ++ s].
Proof.
  revert cur b. induction s as [|c s IH]; intros cur b Hs; simpl.
  - now rewrite app_nil_r.
  - unfold ws_free, all in Hs. simpl in Hs.
    apply andb_true_iff in Hs as [Hc Hs]. apply negb_true_iff in Hc.
    rewrite Hc, IH by exact Hs. now rewrite <- app_assoc.
Qed.

Lemma trim_token (e : str) : ws_free e -> trim e = e.
Proof.
  intros H. destruct e as [|c t] eqn:E; [reflexivity|]. rewrite <- E in *.
  apply (@trim_join [e]). constructor; [|constructor].
  split; [subst; discriminate | exact H].
Qed.

(** A single token that does not start with [(] is named by the rules on
    the first token: no alias rule applies. *)
Lemma single_token_name (this : SQLQueryAnalyzer.t) (e : str) :
  ws_free e -> startsWith e "(" = false ->
  extractColumnName this e = baseName e.
Proof.
  intros Hfree Hparen. unfold extractColumnName.
  rewrite (trim_token Hfree), Hparen.
  destruct (rx_match asRegex e) as [caps|] eqn:E.
  { apply asRegex_sound in E. now elim (explicit_alias_not_ws_free E). }
  unfold split_ws. rewrite (split_ws_from_token [] false Hfree). reflexivity.
Qed.

Lemma funcRegex_sound (b : str) (caps : captures) :
  rx_match funcRegex b = Some caps ->
  exists f sp rest,
    b = f ++ sp ++ "("%char :: rest
    /\ f <> [] /\ all is_word f /\ all is_ws sp /\ group 1 caps = f.
Proof.
  intros E. apply rx_match_sound in E as (u & r & -> & M).
  unfold funcRegex in M. inv_matches.
  match goal with
  | H : is_char _ ?c = true |- _ => apply ch_eqb_eq in H; subst c
  end.
  match goal with
  | |- exists _ _ _, (?f ++ ?sp ++ _) ++ ?r = _ /\ _ => exists f, sp, r
  end.
  rewrite <- !app_assoc. simpl. repeat split; assumption.
Qed.

Lemma funcRegex_complete (f sp rest : str) :
  f <> [] -> all is_word f -> all is_ws sp ->
  exists caps, rx_match funcRegex (f ++ sp ++ "("%char :: rest) = Some caps.
Proof.
  intros Hne Hf Hsp.
  replace (f ++ sp ++ "("%char :: rest)
    with ((f ++ sp ++ ["("%char]) ++ rest)
    by (rewrite <- !app_assoc; reflexivity).
  apply rx_match_complete with (caps := [(1, f)]). unfold funcRegex.
  eapply MSeq; [apply MGroup; now apply MPlus|].
  eapply MSeq; [now apply MStar|].
  apply MChar. apply ch_eqb_refl.
Qed.

Lemma stops_word_call (sp rest : str) :
  all is_ws sp -> stops is_word (sp ++ "("%char :: rest).
Proof.
  intros H. destruct sp as [|c sp]; [reflexivity|]. simpl.
  unfold all in H. simpl in H. apply andb_true_iff in H as [H _].
  now apply ws_not_word.
Qed.

Lemma word_not_paren (c : ascii) : is_word c = true -> ch_eqb c "(" = false.
Proof. all_chars c. Qed.

Lemma startsWith_paren_word (f rest : str) :
  f <> [] -> all is_word f -> startsWith (f ++ rest) "(" = false.
Proof.
  intros Hne Hf. destruct f as [|c f]; [now elim Hne|]. simpl.
  unfold all in Hf. simpl in Hf. apply andb_true_iff in Hf as [Hc _].
  now rewrite (word_not_paren c Hc).
Qed.

(** X5: the function-call rule.  A first token that is a word, optional
    white space and [(] is named by the word in lower case, whatever
    follows; so is a whole expression [f(...)] without white space. *)
Theorem function_call_rule (this : SQLQueryAnalyzer.t) (f sp rest : str)
    (Hne : f <> []) (Hf : all is_word f) (Hsp : all is_ws sp) :
  baseName (f ++ sp ++ "("%char :: rest) = toLowerCase f
  /\ (ws_free rest ->
      extractColumnName this (f ++ "("%char :: rest) = toLowerCase f).
Proof.
  assert (H : forall sp rest, all is_ws sp ->
                baseName (f ++ sp ++ "("%char :: rest) = toLowerCase f).
  { clear sp rest Hsp. intros sp rest Hsp. unfold baseName.
    destruct (funcRegex_complete rest Hne Hf Hsp) as (caps & E). rewrite E.
    apply funcRegex_sound in E as (f' & sp' & rest' & E & _ & Hf' & Hsp' & ->).
    f_equal. symmetry.
    now apply (@span_unique is_word f f' (sp ++ "("%char :: rest)
                 (sp' ++ "("%char :: rest') E Hf Hf'
                 (stops_word_call rest Hsp) (stops_word_call rest' Hsp')). }
  split; [now apply H|].
  intros Hrest. rewrite single_token_name.
  - apply (H [] rest). reflexivity.
  - apply ws_free_app. split; [now apply word_ws_free|].
    apply (ws_free_app ["("%char] rest). split; [reflexivity | exact Hrest].
  - now apply startsWith_paren_word.
Qed.

Lemma function_call_rule_witness :
  baseName "COUNT (DISTINCT" = lit "count"
  /\ extractColumnName constructor "Max(created_at)" = lit "max".
Proof.
  split.
  - refine (proj1 (@function_call_rule constructor (lit "COUNT") (lit " ")
                     (lit "DISTINCT") _ eq_refl eq_refl)).
    discriminate.
  - refine (proj2 (@function_call_rule constructor (lit "Max") []
                     (lit "created_at)") _ eq_refl eq_refl) eq_refl).
    discriminate.
Defined.

Lemma funcRegex_none_dot (w r : str) :
  all is_word w -> rx_match funcRegex (w ++ "."%char :: r) = None.
Proof.
  intros Hw. destruct (rx_match funcRegex _) as [caps|] eqn:E; [|reflexivity].
  apply funcRegex_sound in E as (f & sp & rest & E & _ & Hf & Hsp & _).
  destruct (@span_unique is_word w f ("."%char :: r) (sp ++ "("%char :: rest)
              E Hw Hf) as [_ E'].
  - reflexivity.
  - now apply stops_word_call.
  - destruct sp as [|c sp]; [discriminate|]. injection E' as <- _.
    unfold all in Hsp. simpl in Hsp. discriminate.
Qed.

Lemma baseName_after_dot (b pre post : str) :
  rx_match funcRegex b = None ->
  b = pre ++ "."%char :: post -> ~ In "."%char post ->
  baseName b = post.
Proof.
  intros Hf -> Hpost. unfold baseName. rewrite Hf.
  unfold lastIndexOf. rewrite lastIndexOf_from_last by exact Hpost.
  replace (negb (0 + len pre =? -1)%Z) with true
    by (symmetry; apply negb_true_iff, Z.eqb_neq; unfold len; lia).
  replace (0 + len pre + 1)%Z with (len pre + 1)%Z by lia.
  apply substring_after.
Qed.

Lemma startsWith_paren_dot (w r : str) :
  all is_word w -> startsWith (w ++ "."%char :: r) "(" = false.
Proof.
  intros Hw. destruct w as [|c w]; [reflexivity|].
  now apply startsWith_paren_word.
Qed.

(** X6: the table-qualified rule.  A first token that is a word (or
    nothing) followed by a dot is named by its text after its last dot,
    even when that text has parentheses or operators; so is a whole
    expression of this shape without white space. *)
Theorem qualified_column_rule (this : SQLQueryAnalyzer.t) (w r pre post : str)
    (Hw : all is_word w)
    (Hsplit : w ++ "."%char :: r = pre ++ "."%char :: post)
    (Hpost : ~ In "."%char post) :
  baseName (w ++ "."%char :: r) = post
  /\ (ws_free (w ++ "."%char :: r) ->
      extractColumnName this (w ++ "."%char :: r) = post).
Proof.
  assert (H : baseName (w ++ "."%char :: r) = post).
  { apply baseName_after_dot with (pre := pre);
      [now apply funcRegex_none_dot | exact Hsplit | exact Hpost]. }
  split; [exact H|]. intros Hfree.
  rewrite single_token_name; [exact H | exact Hfree|].
  now apply startsWith_paren_dot.
Qed.

Lemma qualified_column_rule_witness :
  extractColumnName constructor "db.orders.count(x)" = lit "count(x)"
  /\ extractColumnName constructor "abc.*" = lit "*".
Proof.
  split.
  - refine (proj2 (@qualified_column_rule constructor (lit "db")
                     (lit "orders.count(x)") (lit "db.orders") (lit "count(x)")
                     eq_refl eq_refl _) eq_refl).
    vm_compute. intuition discriminate.
  - refine (proj2 (@qualified_column_rule constructor (lit "abc") (lit "*")
                     (lit "abc") (lit "*") eq_refl eq_refl _) eq_refl).
    vm_compute. intuition discriminate.
Defined.

Lemma funcRegex_none_paren (b : str) :
  ~ In "("%char b -> rx_match funcRegex b = None.
Proof.
  intros H. destruct (rx_match funcRegex b) as [caps|] eqn:E; [|reflexivity].
  apply funcRegex_sound in E as (f & sp & rest & -> & _).
  elim H. apply in_or_app. right. apply in_or_app. right. now left.
Qed.

Lemma plain_token_name (this : SQLQueryAnalyzer.t) (e : str) :
  e <> [] -> ws_free e -> ~ In "("%char e -> ~ In "."%char e ->
  extractColumnName this e =
    if existsb is_operator e then calculated_field else e.
Proof.
  intros Hne Hfree Hparen Hdot. rewrite single_token_name; [|exact Hfree|].
  - unfold baseName. rewrite (@funcRegex_none_paren e Hparen).
    destruct (lastIndexOf_cases e ".") as [[_ ->] | (pre & post & -> & _)].
    + reflexivity.
    + elim Hdot. apply in_or_app. right. now left.
  - destruct e as [|c e]; [now elim Hne|]. simpl.
    destruct (ch_eqb c "(") eqn:E; [|reflexivity].
    apply ch_eqb_eq in E. subst. elim Hparen. now left.
Qed.

Lemma word_chars (c : ascii) :
  is_word c = true ->
  is_operator c = false /\ is_plain c = true /\ is_comma c = false
  /\ ch_eqb c "(" = false /\ ch_eqb c "." = false.
Proof. all_chars c; repeat split. Qed.

Lemma word_no_char (e : str) (x : ascii) :
  all is_word e -> is_word x = false -> ~ In x e.
Proof.
  unfold all. rewrite forallb_forall. intros H Hx Hin.
  rewrite (H x Hin) in Hx. discriminate.
Qed.

(** A word is its own name. *)
Lemma word_name (this : SQLQueryAnalyzer.t) (e : str) :
  e <> [] -> all is_word e -> extractColumnName this e = e.
Proof.
  intros Hne Hword. rewrite plain_token_name; try assumption.
  - replace (existsb is_operator e) with false; [reflexivity|].
    symmetry. apply not_true_is_false. intros Hex.
    apply existsb_exists in Hex as (c & Hin & Hop).
    unfold all in Hword. rewrite forallb_forall in Hword.
    destruct (word_chars c (Hword c Hin)) as (H & _). congruence.
  - now apply word_ws_free.
  - now apply word_no_char.
  - now apply word_no_char.
Qed.

(** X7: a column expression without white space, parenthesis and dot is
    its own name, unless it contains one of the operators [+ - * /]: then
    the name is [calculated_field].  In particular a word is its own
    name. *)
Theorem plain_token_rule (this : SQLQueryAnalyzer.t) (e : str)
    (Hne : e <> []) (Hfree : ws_free e)
    (Hparen : ~ In "("%char e) (Hdot : ~ In "."%char e) :
  extractColumnName this e =
    (if existsb is_operator e then calculated_field else e)
  /\ (all is_word e -> extractColumnName this e = e).
Proof.
  split.
  - now apply plain_token_name.
  - intros Hword. now apply word_name.
Qed.

Lemma plain_token_rule_witness :
  extractColumnName constructor "price*quantity" = calculated_field
  /\ extractColumnName constructor "created_at" = lit "created_at".
Proof.
  split.
  - refine (proj1 (@plain_token_rule constructor (lit "price*quantity")
                     _ eq_refl _ _)).
    + discriminate.
    + vm_compute. intuition discriminate.
    + vm_compute. intuition discriminate.
  - refine (proj2 (@plain_token_rule constructor (lit "created_at")
                     _ eq_refl _ _) eq_refl).
    + discriminate.
    + vm_compute. intuition discriminate.
    + vm_compute. intuition discriminate.
Defined.

(** ** The parts of a clause *)

Lemma dropWhile_idem (p : ascii -> bool) (s : str) :
  dropWhile p (dropWhile p s) = dropWhile p s.
Proof.
  induction s as [|c s IH]; simpl; [reflexivity|].
  destruct (p c) eqn:E; [exact IH|]. simpl. now rewrite E.
Qed.

Lemma trim_idem (s : str) : trim (trim s) = trim s.
Proof.
  unfold trim. destruct (trimStart s) as [|c u] eqn:E; [reflexivity|].
  assert (Hc : is_ws c = false) by (eapply dropWhile_head; exact E).
  rewrite trimEnd_cons, Hc. simpl. rewrite (@trimStart_id c (trimEnd u) Hc).
  rewrite trimEnd_cons, Hc. simpl. f_equal.
  unfold trimEnd. now rewrite rev_involutive, dropWhile_idem.
Qed.

Lemma removelast_length (A : Type) (l : list A) :
  l <> [] -> S (length (removelast l)) = length l.
Proof.
  intros H. destruct (exists_last H) as (t & x & ->).
  rewrite removelast_last, length_app. simpl. lia.
Qed.

(** X8: [splitSelectColumns] keeps every segment in front of a top-level
    comma, empty or not, and the last segment only if it is not blank;
    every part is trimmed.  So there are as many parts as top-level
    commas, and one more when something follows the last comma. *)
Theorem split_parts (clause : str) :
  splitSelectColumns clause =
    map trim (removelast (segments clause))
    ++ (if nonempty (trim (last (segments clause) []))
        then [trim (last (segments clause) [])] else [])
  /\ length (removelast (segments clause)) =
     length (filter topLevelComma (annotate clause None scan0))
  /\ Forall (fun p => trim p = p) (splitSelectColumns clause).
Proof.
  assert (H : splitSelectColumns clause =
    map trim (removelast (segments clause))
    ++ (if nonempty (trim (last (segments clause) []))
        then [trim (last (segments clause) [])] else [])).
  { unfold splitSelectColumns, segments.
    rewrite (@splitLoop_spec clause None [] [] scan0 []) by reflexivity.
    cbn [app]. destruct (nonempty _); [reflexivity|]. now rewrite app_nil_r. }
  split; [exact H|]. split.
  - assert (Hne : segments clause <> [])
      by (apply map_nonempty, split_on_nonempty).
    pose proof (removelast_length Hne) as Hl.
    unfold segments in Hl at 2. rewrite length_map, split_on_length in Hl. lia.
  - rewrite H. apply Forall_app. split.
    + apply Forall_forall. intros p Hp. apply in_map_iff in Hp as (x & <- & _).
      apply trim_idem.
    + destruct (nonempty _); constructor; [apply trim_idem | constructor].
Qed.

Lemma plain_chars (c : ascii) :
  is_plain c = true ->
  ch_eqb c dquote = false /\ ch_eqb c squote = false
  /\ ch_eqb c "(" = false /\ ch_eqb c ")" = false.
Proof.
  unfold is_plain. intros H.
  apply andb_true_iff in H as [H H4]. apply andb_true_iff in H as [H H3].
  apply andb_true_iff in H as [H1 H2].
  repeat split; now apply negb_true_iff.
Qed.

Lemma scanStep_plain (c : ascii) (prev : option ascii) (st : scan) :
  is_plain c = true -> scanStep c prev st = st.
Proof.
  intros H. destruct (plain_chars c H) as (H1 & H2 & H3 & H4).
  now apply scanStep_neutral.
Qed.

Lemma annotate_plain (s : str) (prev : option ascii) (st : scan) :
  all is_plain s -> annotate s prev st = map (fun c => (c, st)) s.
Proof.
  revert prev. induction s as [|c s IH]; intros prev H; simpl; [reflexivity|].
  unfold all in H. simpl in H. apply andb_true_iff in H as [Hc Hs].
  rewrite (@scanStep_plain c prev st Hc). f_equal. now apply IH.
Qed.

Lemma split_on_plain (s cur : str) :
  map (map fst)
    (split_on topLevelComma (map (fun c => (c, scan0)) s)
       (map (fun c => (c, scan0)) cur))
  = split_on is_comma s cur.
Proof.
  revert cur. induction s as [|c s IH]; intros cur; simpl.
  - rewrite map_map. simpl. now rewrite map_id.
  - unfold topLevelComma at 1. simpl. rewrite andb_true_r.
    fold (is_comma c). destruct (is_comma c).
    + simpl. rewrite map_map. simpl. rewrite map_id. f_equal. apply (IH []).
    + rewrite <- (IH (cur ++ [c])). now rewrite map_app.
Qed.

Lemma split_on_none (A : Type) (P : A -> bool) (l cur : list A) :
  (forall x, In x l -> P x = false) -> split_on P l cur = [cur ++ l].
Proof.
  revert cur. induction l as [|x l IH]; intros cur H; simpl.
  - now rewrite app_nil_r.
  - rewrite (H x) by now left. rewrite IH by (intros y Hy; apply H; now right).
    now rewrite <- app_assoc.
Qed.

Lemma segments_plain (clause : str) :
  all is_plain clause -> segments clause = split_on is_comma clause [].
Proof.
  intros Hplain. unfold segments.
  rewrite (@annotate_plain clause None scan0 Hplain).
  apply (split_on_plain clause []).
Qed.

Lemma splitSelectColumns_plain (clause : str) :
  all is_plain clause ->
  splitSelectColumns clause =
    dropBlankLast (map trim (split_on is_comma clause [])).
Proof.
  intros Hplain. now rewrite splitSelectColumns_segments, segments_plain.
Qed.

(** X9: in a clause without quotes and parentheses every comma separates
    two columns; without any comma the clause is one column, or none when it
    is blank. *)
Theorem plain_clause_split (clause : str) (Hplain : all is_plain clause) :
  segments clause = split_on is_comma clause []
  /\ splitSelectColumns clause =
       dropBlankLast (map trim (split_on is_comma clause []))
  /\ (~ In ","%char clause ->
      splitSelectColumns clause =
        if nonempty (trim clause) then [trim clause] else []).
Proof.
  split; [now apply segments_plain|].
  split; [now apply splitSelectColumns_plain|].
  intros Hno. rewrite splitSelectColumns_plain by exact Hplain.
  rewrite split_on_none.
  - unfold dropBlankLast. simpl. now destruct (nonempty (trim clause)).
  - intros c Hc. unfold is_comma. destruct (ch_eqb c ",") eqn:E; [|reflexivity].
    apply ch_eqb_eq in E. now subst.
Qed.

Lemma plain_clause_split_witness :
  splitSelectColumns "a,, b c ,d," = [lit "a"; lit ""; lit "b c"; lit "d"].
Proof.
  rewrite (proj1 (proj2 (@plain_clause_split (lit "a,, b c ,d,") eq_refl))).
  reflexivity.
Defined.

(** ** The scanner *)

Lemma scan_ok_handle (c : ascii) (prev : option ascii) (st : scan) :
  scan_ok st -> scan_ok (handleQuotes c prev st).
Proof.
  intros H. unfold handleQuotes.
  destruct ((ch_eqb c dquote || ch_eqb c squote)
            && negb (opt_is prev backslash)) eqn:E; [|exact H].
  apply andb_true_iff in E as [E _]. apply orb_true_iff in E.
  destruct (inQuotes st) eqn:Hin; simpl.
  - destruct (opt_is (quoteChar st) c); [reflexivity | exact H].
  - unfold scan_ok. simpl.
    destruct E as [E | E]; apply ch_eqb_eq in E; subst; auto.
Qed.

Lemma scan_ok_track (c : ascii) (st : scan) :
  scan_ok st -> scan_ok (trackParentheses c st).
Proof.
  intros H. unfold trackParentheses.
  destruct (ch_eqb c "("); [exact H|]. now destruct (ch_eqb c ")").
Qed.

Lemma scan_ok_step (c : ascii) (prev : option ascii) (st : scan) :
  scan_ok st -> scan_ok (scanStep c prev st).
Proof.
  intros H. unfold scanStep. apply (scan_ok_handle c prev) in H.
  destruct (negb _); [now apply scan_ok_track | exact H].
Qed.

Lemma scan_ok_run (rest : str) :
  forall prev st n, scan_ok st -> scan_ok (scanRun rest prev st n).
Proof.
  induction rest as [|c rest IH]; intros prev st [|n] H; simpl; try exact H.
  apply IH. now apply scan_ok_step.
Qed.

(** X10: the scanner of the two loops.  From the start of a scan, the
    quote character is kept exactly while the scanner is inside a literal.
    Inside a literal every character leaves the state as it is, except the
    quote character that opened it when no backslash comes before it: that
    one closes the literal, the depth staying as it was.  Outside literals a
    quote after a backslash changes nothing and any other quote opens a
    literal. *)
Theorem scanner_literals :
  (forall rest prev n, scan_ok (scanRun rest prev scan0 n))
  /\ (forall c prev st q,
        inQuotes st = true -> quoteChar st = Some q ->
        c <> q \/ prev = Some backslash ->
        scanStep c prev st = st)
  /\ (forall prev st q,
        inQuotes st = true -> quoteChar st = Some q ->
        q = squote \/ q = dquote -> opt_is prev backslash = false ->
        scanStep q prev st =
          {| parenthesesLevel := parenthesesLevel st;
             inQuotes := false; quoteChar := None |})
  /\ (forall prev st q,
        inQuotes st = false -> q = squote \/ q = dquote ->
        scanStep q prev st =
          if opt_is prev backslash then st
          else {| parenthesesLevel := parenthesesLevel st;
                  inQuotes := true; quoteChar := Some q |}).
Proof.
  split; [|split; [|split]].
  - intros rest prev n. now apply scan_ok_run.
  - intros c prev st q Hin Hq Hc. unfold scanStep, handleQuotes.
    rewrite Hin, Hq. simpl.
    destruct ((ch_eqb c dquote || ch_eqb c squote)
              && negb (opt_is prev backslash)) eqn:E.
    + destruct (ch_eqb q c) eqn:Eq.
      * apply ch_eqb_eq in Eq. subst q.
        destruct Hc as [Hc | ->]; [now elim Hc|].
        simpl in E. rewrite andb_false_r in E. discriminate.
      * now rewrite Hin.
    + now rewrite Hin.
  - intros prev st q Hin Hq Hquote Hprev. unfold scanStep, handleQuotes.
    rewrite Hin, Hq, Hprev. simpl. rewrite ch_eqb_refl.
    destruct Hquote as [-> | ->]; reflexivity.
  - intros prev st q Hin Hquote. unfold scanStep, handleQuotes.
    rewrite Hin. destruct (opt_is prev backslash);
      destruct Hquote as [-> | ->]; simpl; rewrite ?Hin; simpl;
      try reflexivity; destruct st; simpl in *; subst; reflexivity.
Qed.

(** ** The clause between SELECT and FROM *)

Lemma scanStep_prev (c : ascii) (prev : option ascii) (st : scan) :
  opt_is prev backslash = false -> scanStep c prev st = scanStep c None st.
Proof. intros H. unfold scanStep, handleQuotes. now rewrite H. Qed.

Lemma scanRun_prev (rest : str) (prev : option ascii) (st : scan) (n : nat) :
  opt_is prev backslash = false ->
  scanRun rest prev st n = scanRun rest None st n.
Proof.
  intros H. destruct n as [|n]; [reflexivity|].
  destruct rest as [|c rest]; [reflexivity|]. simpl.
  now rewrite (@scanStep_prev c prev st H).
Qed.

Lemma scanRun_app (a b : str) :
  forall prev st n,
    n <= length a -> scanRun (a ++ b) prev st n = scanRun a prev st n.
Proof.
  induction a as [|c a IH]; intros prev st n Hn.
  - simpl in Hn. replace n with 0 by lia. now destruct b.
  - destruct n as [|n]; [reflexivity|]. simpl. apply IH. simpl in Hn. lia.
Qed.

Lemma scanRun_plain_next (a b : str) (c : ascii) :
  forall prev st,
    is_plain c = true ->
    scanRun (a ++ c :: b) prev st (S (length a)) = scanRun a prev st (length a).
Proof.
  induction a as [|x a IH]; intros prev st Hc; simpl.
  - now apply scanStep_plain.
  - now apply IH.
Qed.

Lemma upper_space (c : ascii) : upper_ch c = " "%char -> c = " "%char.
Proof. all_chars c. Qed.

Lemma upper_not_backslash (c : ascii) :
  upper_ch c = "T"%char -> ch_eqb c backslash = false.
Proof. all_chars c. Qed.

Lemma startsWith_app_self (p r : str) : startsWith (p ++ r) p = true.
Proof.
  induction p as [|c p IH]; [now destruct r|].
  simpl. now rewrite ch_eqb_refl.
Qed.

Lemma indexOf_from_hit (s pat : str) (i : Z) :
  startsWith s pat = true -> indexOf_from s pat i = i.
Proof. intros H. destruct s; cbn [indexOf_from]; now rewrite H. Qed.

Lemma select_prefix (sel r : str) :
  toUpperCase sel = lit "SELECT" ->
  selectStart (sel ++ r) = 6%Z
  /\ length sel = 6
  /\ opt_is (prevCharAt (sel ++ r) 6) backslash = false.
Proof.
  intros H.
  assert (Hlen : length sel = 6).
  { apply (f_equal (@length ascii)) in H. unfold toUpperCase in H.
    now rewrite length_map in H. }
  split; [|split; [exact Hlen|]].
  - unfold selectStart, indexOf, toUpperCase. rewrite map_app.
    fold (toUpperCase sel). rewrite H.
    rewrite indexOf_from_hit by apply startsWith_app_self. reflexivity.
  - destruct sel as [|c1 [|c2 [|c3 [|c4 [|c5 [|c6 [|c7 sel]]]]]]];
      try discriminate.
    injection H as _ _ _ _ _ H6. simpl. now apply upper_not_backslash.
Qed.

Lemma from_prefix (frm r : str) :
  toUpperCase frm = lit " FROM " ->
  startsWith (toUpperCase (frm ++ r)) " FROM " = true
  /\ length frm = 6
  /\ exists f, frm = " "%char :: f.
Proof.
  intros H. split; [|split].
  - unfold toUpperCase. rewrite map_app. fold (toUpperCase frm).
    rewrite H. apply startsWith_app_self.
  - apply (f_equal (@length ascii)) in H. unfold toUpperCase in H.
    now rewrite length_map in H.
  - destruct frm as [|c f]; [discriminate|]. injection H as H _.
    apply upper_space in H. subst. now exists f.
Qed.

Lemma substring_middle (a b c : str) :
  substring (a ++ b ++ c) (len a) (len a + len b) = b.
Proof.
  unfold substring.
  assert (E1 : clamp (a ++ b ++ c) (len a) = length a).
  { unfold clamp. rewrite !len_app. unfold len. lia. }
  assert (E2 : clamp (a ++ b ++ c) (len a + len b) = length a + length b).
  { unfold clamp. rewrite !len_app. unfold len. lia. }
  rewrite E1, E2, Nat.min_l, Nat.max_r by lia.
  rewrite skipn_app, skipn_all, Nat.sub_diag. simpl.
  replace (length a + length b - length a) with (length b + 0) by lia.
  rewrite firstn_app_2. simpl. apply app_nil_r.
Qed.

Lemma selectEnd_unfold (sel r : str) :
  toUpperCase sel = lit "SELECT" ->
  selectEnd (sel ++ r) =
    findSelectEnd r (prevCharAt (sel ++ r) 6) 6 (len (sel ++ r)) scan0.
Proof.
  intros H. destruct (@select_prefix sel r H) as (Hs & Hl & _).
  unfold selectEnd. rewrite Hs.
  replace (Z.to_nat 6) with (length sel) by (rewrite Hl; reflexivity).
  now rewrite skipn_app, skipn_all, Nat.sub_diag.
Qed.

Lemma selectEnd_before_from (sel body frm rest : str) :
  toUpperCase sel = lit "SELECT" ->
  toUpperCase frm = lit " FROM " ->
  topLevel (scanRun body None scan0 (length body)) = true ->
  (forall k, k < length body ->
     topLevel (scanRun body None scan0 (S k)) = true ->
     startsWith (toUpperCase (skipn k (body ++ frm ++ rest))) " FROM "
     = false) ->
  selectEnd (sel ++ body ++ frm ++ rest) = (6 + len body)%Z.
Proof.
  intros Hsel Hfrm Hbal Hno.
  destruct (@select_prefix sel (body ++ frm ++ rest) Hsel) as (Hs & Hl & Hp).
  destruct (@from_prefix frm rest Hfrm) as (Hf & Hfl & f & ->).
  set (q := sel ++ body ++ (" "%char :: f) ++ rest) in *.
  assert (Hq : len q = (12 + len body + len rest)%Z).
  { unfold q. rewrite !len_app. unfold len. rewrite Hl, Hfl. lia. }
  unfold q. rewrite (@selectEnd_unfold sel _ Hsel). fold q.
  destruct (findSelectEnd_spec (body ++ (" "%char :: f) ++ rest)
              (prevCharAt q 6) 6 (len q) scan0) as [H1 H2].
  assert (Hk0 : topLevel (scanRun (body ++ (" "%char :: f) ++ rest)
                           (prevCharAt q 6) scan0 (S (length body)))
                && startsWith
                     (toUpperCase
                        (skipn (length body) (body ++ (" "%char :: f) ++ rest)))
                     " FROM " = true).
  { rewrite (@scanRun_prev _ _ _ _ Hp).
    change ((" "%char :: f) ++ rest) with (" "%char :: f ++ rest) at 1.
    rewrite scanRun_plain_next by reflexivity. rewrite Hbal.
    rewrite skipn_app, skipn_all, Nat.sub_diag. simpl.
    exact Hf. }
  assert (Hle : (findSelectEnd (body ++ (" "%char :: f) ++ rest)
                   (prevCharAt q 6) 6 (len q) scan0
                 <= 6 + Z.of_nat (length body))%Z).
  { apply Z.nlt_ge. intros Hlt.
    rewrite H2 in Hk0; [discriminate| |exact Hlt|].
    - rewrite !length_app. simpl. lia.
    - unfold len in *. lia. }
  destruct H1 as [H1 | (k & E & Hk & Hlt & Ht & Hfr)].
  - unfold len in *. lia.
  - rewrite E in *. unfold len.
    destruct (Nat.eq_dec k (length body)) as [-> | Hneq]; [reflexivity|].
    assert (Hkb : k < length body) by lia.
    rewrite (@scanRun_prev _ _ _ _ Hp), scanRun_app in Ht by lia.
    rewrite (Hno k Hkb Ht) in Hfr. discriminate.
Qed.

Lemma clause_at (sel body r : str) :
  toUpperCase sel = lit "SELECT" ->
  selectEnd (sel ++ body ++ r) = (6 + len body)%Z ->
  extractSelectClause (sel ++ body ++ r) = trim body.
Proof.
  intros Hsel He.
  destruct (@select_prefix sel (body ++ r) Hsel) as (Hs & Hl & _).
  unfold extractSelectClause. rewrite He, Hs.
  replace 6%Z with (len sel) by (unfold len; rewrite Hl; reflexivity).
  now rewrite substring_middle.
Qed.

(** X11: the clause is the text between the leading SELECT and the first
    [" FROM "] at depth zero outside quotes, trimmed, whatever follows
    that FROM.  Here the query is SELECT, a body whose scan ends at depth
    zero outside quotes and in which no [" FROM "] begins at depth zero
    outside quotes, FROM between two spaces and the rest; SELECT and FROM
    are in any letter case. *)
Theorem clause_before_from (sel body frm rest : str)
    (Hsel : toUpperCase sel = lit "SELECT")
    (Hfrm : toUpperCase frm = lit " FROM ")
    (Hbal : topLevel (scanRun body None scan0 (length body)) = true)
    (Hno : forall k, k < length body ->
           topLevel (scanRun body None scan0 (S k)) = true ->
           startsWith (toUpperCase (skipn k (body ++ frm ++ rest))) " FROM "
           = false) :
  selectEnd (sel ++ body ++ frm ++ rest) = (6 + len body)%Z
  /\ extractSelectClause (sel ++ body ++ frm ++ rest) = trim body.
Proof.
  assert (He : selectEnd (sel ++ body ++ frm ++ rest) = (6 + len body)%Z)
    by now apply selectEnd_before_from.
  split; [exact He|]. now apply clause_at.
Qed.

Lemma clause_before_from_witness :
  extractSelectClause "select 'x FROM y' l, (SELECT b FROM t) c from users u"
  = lit "'x FROM y' l, (SELECT b FROM t) c".
Proof.
  refine (proj2 (@clause_before_from (lit "select")
                   (lit " 'x FROM y' l, (SELECT b FROM t) c")
                   (lit " from ") (lit "users u") eq_refl eq_refl eq_refl _)).
  intros k Hk Ht.
  do 34 (destruct k as [|k]; [scan_case Ht Hk|]).
  exfalso. simpl in Hk. lia.
Defined.

(** X12: a query without [" FROM "] at depth zero outside quotes has no
    FROM clause for the program: the SELECT clause is everything after the
    leading SELECT, trimmed. *)
Theorem clause_without_from (sel r : str)
    (Hsel : toUpperCase sel = lit "SELECT")
    (Hno : forall k, k < length r ->
           topLevel (scanRun r None scan0 (S k)) = true ->
           startsWith (toUpperCase (skipn k r)) " FROM " = false) :
  selectEnd (sel ++ r) = len (sel ++ r)
  /\ extractSelectClause (sel ++ r) = trim r.
Proof.
  destruct (@select_prefix sel r Hsel) as (Hs & Hl & Hp).
  assert (He : selectEnd (sel ++ r) = len (sel ++ r)).
  { rewrite (@selectEnd_unfold sel r Hsel).
    destruct (findSelectEnd_spec r (prevCharAt (sel ++ r) 6) 6
                (len (sel ++ r)) scan0) as [[H1 | (k & E & Hk & _ & Ht & Hf)] _];
      [exact H1|].
    rewrite (@scanRun_prev _ _ _ _ Hp) in Ht.
    rewrite (Hno k Hk Ht) in Hf. discriminate. }
  split; [exact He|].
  unfold extractSelectClause. rewrite He, Hs.
  replace 6%Z with (len sel) by (unfold len; rewrite Hl; reflexivity).
  fold (substring_from (sel ++ r) (len sel)). now rewrite substring_from_app.
Qed.

Lemma clause_without_from_witness :
  extractSelectClause "SELECT 1 + 1, (SELECT x FROM t) " = lit "1 + 1, (SELECT x FROM t)".
Proof.
  refine (proj2 (@clause_without_from (lit "SELECT")
                   (lit " 1 + 1, (SELECT x FROM t) ") eq_refl _)).
  intros k Hk Ht.
  do 26 (destruct k as [|k]; [scan_case Ht Hk|]).
  exfalso. simpl in Hk. lia.
Defined.

(** ** A list of column names and back *)

Lemma join_sp_spaced (a : str) (toks : list str) :
  join_sp (a :: toks) = a ++ spaced toks.
Proof.
  revert a. induction toks as [|b toks IH]; intros a.
  - simpl. now rewrite app_nil_r.
  - change (join_sp (a :: b :: toks)) with (a ++ " "%char :: join_sp (b :: toks)).
    rewrite IH. reflexivity.
Qed.

Lemma spaced_app (a b : list str) : spaced (a ++ b) = spaced a ++ spaced b.
Proof. unfold spaced. now rewrite map_app, concat_app. Qed.

Lemma startsWith_iff (s p : str) :
  startsWith s p = true <-> exists r, s = p ++ r.
Proof.
  revert s. induction p as [|c p IH]; intros s.
  - split; [intros _; now exists s | now destruct s].
  - destruct s as [|x s]; simpl.
    + split; [discriminate | intros (r & H); discriminate].
    + rewrite andb_true_iff, ch_eqb_eq, IH. split.
      * intros [-> (r & ->)]. now exists r.
      * intros (r & H). injection H as -> ->. split; [reflexivity | now exists r].
Qed.

Lemma ws_free_upper (s : str) : ws_free s -> ws_free (toUpperCase s).
Proof.
  unfold ws_free, all, toUpperCase. rewrite !forallb_forall.
  intros H c Hc. apply in_map_iff in Hc as (x & <- & Hx).
  rewrite is_ws_upper. now apply H.
Qed.

Lemma spaced_stops (toks : list str) :
  stops (fun c => negb (is_ws c)) (toUpperCase (spaced toks)).
Proof. destruct toks; reflexivity. Qed.

(** Where [" FROM "] begins in a text of tokens, a space in front of each:
    at a token FROM that is not the last one. *)
Lemma from_in_spaced (toks : list str) :
  Forall is_token toks ->
  forall k,
    startsWith (toUpperCase (skipn k (spaced toks))) " FROM " = true ->
    exists pre x post,
      toks = pre ++ x :: post /\ toUpperCase x = lit "FROM"
      /\ post <> [] /\ k = length (spaced pre).
Proof.
  induction 1 as [|t toks Ht Htoks IH]; intros k H.
  - unfold spaced in H. simpl in H. now rewrite skipn_nil in H.
  - change (spaced (t :: toks)) with (" "%char :: t ++ spaced toks) in H.
    destruct k as [|k].
    + simpl in H. apply startsWith_iff in H as (r & H).
      unfold toUpperCase in H. rewrite map_app in H.
      fold (toUpperCase t) in H. fold (toUpperCase (spaced toks)) in H.
      change (lit "FROM " ++ r) with (lit "FROM" ++ " "%char :: r) in H.
      destruct (@span_unique (fun c => negb (is_ws c)) (toUpperCase t)
                  (lit "FROM") (toUpperCase (spaced toks)) (" "%char :: r) H)
        as [E1 E2].
      * apply ws_free_upper, Ht.
      * reflexivity.
      * apply spaced_stops.
      * reflexivity.
      * exists [], t, toks. repeat split; [exact E1|].
        intros ->. discriminate.
    + simpl in H. destruct (Nat.lt_ge_cases k (length t)) as [Hlt | Hge].
      * exfalso. rewrite skipn_app in H.
        replace (k - length t) with 0 in H by lia. simpl in H.
        destruct (skipn k t) as [|c u] eqn:E.
        { apply (f_equal (@length ascii)) in E. rewrite length_skipn in E.
          simpl in E. lia. }
        simpl in H. apply andb_true_iff in H as [H _].
        apply ch_eqb_eq, upper_space in H. subst c.
        assert (Hu : ws_free (skipn k t)) by (apply ws_free_skipn, Ht).
        rewrite E in Hu. discriminate.
      * rewrite skipn_app, skipn_all2 in H by exact Hge. simpl in H.
        destruct (IH _ H) as (pre & x & post & -> & Hx & Hpost & Hk).
        exists (t :: pre), x, post. repeat split; try assumption.
        change (spaced (t :: pre)) with (" "%char :: t ++ spaced pre).
        simpl. rewrite length_app. lia.
Qed.

Lemma commaed_nonempty (items : list str) : items <> [] -> commaed items <> [].
Proof.
  destruct items as [|w [|w2 items]]; [intros H; now elim H| |]; discriminate.
Qed.

(** A token of a select list is an item with a comma, or the last item. *)
Lemma commaed_cases (items pre : list str) (x : str) (post : list str) :
  commaed items = pre ++ x :: post ->
  (exists w, In w items /\ x = w ++ [","%char])
  \/ (post = [] /\ x = last items []).
Proof.
  revert pre. induction items as [|w items IH]; intros pre H.
  - destruct pre; discriminate.
  - destruct items as [|w2 items].
    + destruct pre as [|p pre]; [|destruct pre; discriminate].
      injection H as <- <-. now right.
    + change (commaed (w :: w2 :: items))
        with ((w ++ [","%char]) :: commaed (w2 :: items)) in H.
      destruct pre as [|p pre].
      * injection H as <- _. left. exists w. split; [now left | reflexivity].
      * injection H as _ H. apply IH in H as [(v & Hv & ->) | [-> ->]].
        -- left. exists v. split; [now right | reflexivity].
        -- now right.
Qed.

Lemma commaed_tokens (items : list str) :
  Forall bare_word items -> Forall is_token (commaed items).
Proof.
  induction 1 as [|w items [Hne Hw] Hitems IH]; [constructor|].
  destruct items as [|w2 items].
  - constructor; [|constructor]. split; [exact Hne | now apply word_ws_free].
  - change (commaed (w :: w2 :: items))
      with ((w ++ [","%char]) :: commaed (w2 :: items)).
    constructor; [|exact IH]. split; [now destruct w|].
    apply ws_free_app. split; [now apply word_ws_free | reflexivity].
Qed.

Lemma all_app (p : ascii -> bool) (a b : str) :
  all p (a ++ b) <-> all p a /\ all p b.
Proof. unfold all. rewrite forallb_app. apply andb_true_iff. Qed.

Lemma word_plain (w : str) : all is_word w -> all is_plain w.
Proof.
  apply all_impl. intros c Hc. now destruct (word_chars c Hc) as (_ & H & _).
Qed.

Lemma commaed_plain (items : list str) :
  Forall bare_word items -> all is_plain (join_sp (commaed items)).
Proof.
  induction 1 as [|w items [Hne Hw] Hitems IH]; [reflexivity|].
  destruct items as [|w2 items]; [now apply word_plain|].
  change (commaed (w :: w2 :: items))
    with ((w ++ [","%char]) :: commaed (w2 :: items)).
  rewrite join_sp_cons
    by (apply (@commaed_nonempty (w2 :: items)); discriminate).
  apply all_app. split.
  - apply all_app. split; [now apply word_plain | reflexivity].
  - unfold all. simpl. exact IH.
Qed.

Lemma split_on_skip (A : Type) (P : A -> bool) (a l cur : list A) :
  (forall x, In x a -> P x = false) ->
  split_on P (a ++ l) cur = split_on P l (cur ++ a).
Proof.
  revert cur. induction a as [|x a IH]; intros cur H; simpl.
  - now rewrite app_nil_r.
  - rewrite (H x) by now left. rewrite IH by (intros y Hy; apply H; now right).
    now rewrite <- app_assoc.
Qed.

Lemma word_no_comma (w : str) :
  all is_word w -> forall x, In x w -> is_comma x = false.
Proof.
  unfold all. rewrite forallb_forall. intros H x Hx.
  now destruct (word_chars x (H x Hx)) as (_ & _ & Hc & _).
Qed.

(** The cuts of a select list text. *)
Lemma split_commaed (items : list str) :
  Forall bare_word items -> items <> [] ->
  forall cur,
    split_on is_comma (join_sp (commaed items)) cur =
    (cur ++ hd [] items) :: map (fun w => " "%char :: w) (tl items).
Proof.
  induction 1 as [|w items [Hne Hw] Hitems IH]; intros Hnil cur;
    [now elim Hnil|].
  destruct items as [|w2 items].
  - simpl. apply split_on_none. now apply word_no_comma.
  - change (commaed (w :: w2 :: items))
      with ((w ++ [","%char]) :: commaed (w2 :: items)).
    rewrite join_sp_cons
      by (apply (@commaed_nonempty (w2 :: items)); discriminate).
    rewrite <- app_assoc. rewrite split_on_skip by now apply word_no_comma.
    simpl. f_equal. rewrite IH by discriminate. reflexivity.
Qed.

Lemma trim_space_word (w : str) :
  bare_word w -> trim (" "%char :: w) = w /\ trim w = w.
Proof.
  intros [Hne Hw].
  assert (H : trim w = w) by now apply trim_token, word_ws_free.
  split; [|exact H]. unfold trim in *. exact H.
Qed.

Lemma map_trim_items (items : list str) :
  Forall bare_word items ->
  map trim (map (fun w => " "%char :: w) items) = items
  /\ map trim items = items.
Proof.
  induction 1 as [|w items Hw Hitems [IH1 IH2]]; [split; reflexivity|].
  destruct (trim_space_word Hw) as [H1 H2]. simpl.
  now rewrite H1, H2, IH1, IH2.
Qed.

Lemma Forall_last_ne (A : Type) (P : A -> Prop) (l : list A) (d : A) :
  Forall P l -> l <> [] -> P (last l d).
Proof.
  intros H Hne. induction H as [|x l Hx Hl IH]; [now elim Hne|].
  destruct l; [exact Hx | apply IH; discriminate].
Qed.

Lemma splitSelectColumns_items (items : list str) :
  Forall bare_word items -> items <> [] ->
  splitSelectColumns (join_sp (commaed items)) = items.
Proof.
  intros Hitems Hne.
  rewrite splitSelectColumns_plain by now apply commaed_plain.
  rewrite split_commaed by assumption.
  destruct items as [|w items]; [now elim Hne|].
  inversion Hitems as [|? ? Hw Hrest]; subst.
  simpl hd. simpl tl. simpl app. cbn [map].
  rewrite (proj2 (trim_space_word Hw)), (proj1 (map_trim_items Hrest)).
  unfold dropBlankLast.
  replace (nonempty (last (w :: items) [])) with true; [reflexivity|].
  symmetry. apply nonempty_true.
  apply (@Forall_last_ne str bare_word (w :: items) [] Hitems). discriminate.
Qed.

Lemma parse_items (this : SQLQueryAnalyzer.t) (items : list str) :
  Forall bare_word items -> items <> [] ->
  parseSelectColumns this (join_sp (commaed items)) = items.
Proof.
  intros Hitems Hne. rewrite parseSelectColumns_eq.
  rewrite splitSelectColumns_items by assumption.
  rewrite (proj2 (map_trim_items Hitems)).
  induction Hitems as [|w items Hw Hrest IH]; [reflexivity|].
  simpl. rewrite (word_name this (proj1 Hw) (proj2 Hw)).
  rewrite (proj2 (nonempty_true w) (proj1 Hw)). f_equal.
  destruct items as [|w2 items]; [reflexivity|]. apply IH. discriminate.
Qed.

Lemma scanRun_plain (s : str) :
  forall prev st n, all is_plain s -> scanRun s prev st n = st.
Proof.
  induction s as [|c s IH]; intros prev st [|n] H; try reflexivity.
  unfold all in H. simpl in H. apply andb_true_iff in H as [Hc Hs].
  simpl. rewrite (@scanStep_plain c prev st Hc). now apply IH.
Qed.

Lemma spaced_cons (t : str) (toks : list str) :
  spaced (t :: toks) = " "%char :: join_sp (t :: toks).
Proof. rewrite join_sp_spaced. reflexivity. Qed.

Lemma comma_not_from (w : str) : toUpperCase (w ++ [","%char]) <> lit "FROM".
Proof.
  intros H. apply (f_equal (@rev ascii)) in H.
  unfold toUpperCase in H. rewrite map_app, rev_app_distr in H.
  simpl in H. discriminate.
Qed.

Lemma trim_leading_space (s : str) : trim (" "%char :: s) = trim s.
Proof. reflexivity. Qed.

(** No [" FROM "] begins inside the list of a [selectQuery]. *)
Lemma no_from_in_items (items : list str) (table : str) (k : nat) :
  Forall bare_word items -> items <> [] ->
  toUpperCase (last items []) <> lit "FROM" -> is_token table ->
  k < length (spaced (commaed items)) ->
  startsWith
    (toUpperCase (skipn k (spaced (commaed items) ++ lit " FROM " ++ table)))
    " FROM " = false.
Proof.
  intros Hitems Hne Hlast Htable Hk.
  destruct (startsWith _ _) eqn:E; [exfalso|reflexivity].
  replace (spaced (commaed items) ++ lit " FROM " ++ table)
    with (spaced (commaed items ++ [lit "FROM"; table])) in E
    by (rewrite spaced_app; unfold spaced at 2; simpl; now rewrite app_nil_r).
  apply from_in_spaced in E as (pre & x & post & E & Hx & Hpost & ->).
  - apply app_eq_app in E as (l & [[E1 E2] | [E1 E2]]).
    + destruct l as [|x' l].
      * rewrite app_nil_r in E1. subst pre. lia.
      * injection E2 as <- _. apply commaed_cases in E1 as [(w & _ & ->) | [_ ->]].
        -- now elim (comma_not_from w).
        -- contradiction.
    + subst pre. rewrite spaced_app, length_app in Hk. lia.
  - apply Forall_app. split; [now apply commaed_tokens|].
    constructor; [split; [discriminate | reflexivity]|].
    constructor; [exact Htable | constructor].
Qed.

(** X13: a list of column names and back.  For column names that are
    words, a table name without white space and a last column name that is
    not the word FROM, the query [SELECT w1, w2, ..., wn FROM table] is
    analyzed to the names [w1; w2; ...; wn], in this order. *)
Theorem select_round_trip (this : SQLQueryAnalyzer.t) (items : list str)
    (table : str)
    (Hitems : Forall bare_word items) (Hne : items <> [])
    (Hlast : toUpperCase (last items []) <> lit "FROM")
    (Htable : is_token table) :
  analyzeQuery this (JsString (selectQuery items table)) = Return items.
Proof.
  assert (Htoks : Forall is_token
                    (lit "SELECT" :: commaed items ++ [lit "FROM"; table])).
  { constructor; [split; [discriminate | reflexivity]|].
    apply Forall_app. split; [now apply commaed_tokens|].
    constructor; [split; [discriminate | reflexivity]|].
    constructor; [exact Htable | constructor]. }
  assert (Hclean : cleanQuery (selectQuery items table) = selectQuery items table).
  { unfold selectQuery. now rewrite cleanQuery_join, words_join. }
  assert (Hq : selectQuery items table =
               lit "SELECT" ++ spaced (commaed items) ++ lit " FROM " ++ table).
  { unfold selectQuery. rewrite join_sp_spaced, spaced_app.
    unfold spaced at 2. simpl. now rewrite app_nil_r. }
  rewrite analyze_string by (rewrite Hq; discriminate).
  rewrite Hclean.
  assert (Hsel : isSelectQuery (selectQuery items table) = true).
  { rewrite <- Hclean, isSelectQuery_clean, Hclean.
    unfold begins_with_select. rewrite Hq.
    unfold toUpperCase. rewrite map_app. apply startsWith_app_self. }
  rewrite Hsel. f_equal.
  destruct (commaed items) as [|t toks] eqn:EC;
    [now elim (commaed_nonempty Hne)|].
  assert (Hplain : all is_plain (spaced (t :: toks))).
  { rewrite spaced_cons, <- EC. unfold all. simpl.
    now apply commaed_plain. }
  rewrite Hq, clause_at.
  - rewrite spaced_cons, trim_leading_space.
    rewrite trim_join by (rewrite <- EC; now apply commaed_tokens).
    rewrite <- EC. now apply parse_items.
  - reflexivity.
  - apply selectEnd_before_from; try reflexivity.
    + now rewrite scanRun_plain.
    + intros k Hk _. rewrite <- EC in *. now apply no_from_in_items.
Qed.

Lemma select_round_trip_witness :
  analyzeQuery constructor (JsString "SELECT id, FROM, created_at, 2x FROM orders")
  = Return [lit "id"; lit "FROM"; lit "created_at"; lit "2x"].
Proof.
  refine (@select_round_trip constructor
            [lit "id"; lit "FROM"; lit "created_at"; lit "2x"] (lit "orders")
            _ _ _ _).
  - repeat constructor; discriminate.
  - discriminate.
  - discriminate.
  - split; [discriminate | reflexivity].
Defined.

(** ** The callers *)

Lemma dropWhile_replace (s : str) (b : bool) :
  dropWhile is_ws (replace_ws_runs s b) =
  replace_ws_runs (dropWhile is_ws s) false.
Proof.
  revert b. induction s as [|c s IH]; intros b; simpl; [reflexivity|].
  destruct (is_ws c) eqn:Hc.
  - destruct b; [apply IH|]. simpl. apply IH.
  - simpl. now rewrite Hc.
Qed.

Lemma replace_blank (s : str) :
  forallb is_ws s = true -> replace_ws_runs s true = [].
Proof.
  induction s as [|c s IH]; simpl; [reflexivity|]. intros H.
  apply andb_true_iff in H as [Hc Hs]. rewrite Hc. now apply IH.
Qed.

Lemma replace_all_ws (s : str) (b : bool) :
  forallb is_ws (replace_ws_runs s b) = forallb is_ws s.
Proof.
  revert b. induction s as [|c s IH]; intros b; simpl; [reflexivity|].
  destruct (is_ws c) eqn:Hc.
  - destruct b; simpl; apply IH.
  - simpl. now rewrite Hc.
Qed.

Lemma trimEnd_replace (s : str) (b : bool) :
  trimEnd (replace_ws_runs s b) = replace_ws_runs (trimEnd s) b.
Proof.
  revert b. induction s as [|c s IH]; intros b; [reflexivity|].
  rewrite (trimEnd_cons c s). simpl replace_ws_runs at 1.
  destruct (is_ws c) eqn:Hc; simpl andb.
  - destruct (forallb is_ws s) eqn:Hs.
    + rewrite (replace_blank s Hs). now destruct b.
    + simpl. rewrite Hc. destruct b; [apply IH|].
      rewrite trimEnd_cons, replace_all_ws, Hs, andb_false_r.
      now rewrite IH.
  - rewrite trimEnd_cons, Hc. simpl. rewrite Hc. now rewrite IH.
Qed.

(** X14: collapsing the white space and trimming commute: the text that
    the test suite and the usage examples print for a query,
    [query.replace(/\s+/g, ' ').trim()], is the normalized query that
    [cleanQuery] computes by trimming first. *)
Theorem displayQuery_cleanQuery (query : str) :
  displayQuery query = cleanQuery query.
Proof.
  unfold displayQuery. rewrite cleanQuery_runs. unfold trim, trimStart.
  now rewrite dropWhile_replace, trimEnd_replace.
Qed.


(** *** The verdict of the test suite *)

Lemma code_inj (x y : ascii) : code x = code y -> x = y.
Proof.
  unfold code. intros H. apply (f_equal ascii_of_nat) in H.
  now rewrite !ascii_nat_embedding in H.
Qed.

Lemma str_leb_total (a b : str) : str_leb a b = false -> str_leb b a = true.
Proof.
  revert b. induction a as [|x a IH]; intros [|y b]; simpl; try discriminate;
    try reflexivity.
  destruct (code x <? code y) eqn:E1; [discriminate|].
  destruct (code y <? code x) eqn:E2; [reflexivity|]. apply IH.
Qed.

Lemma str_leb_antisym (a b : str) :
  str_leb a b = true -> str_leb b a = true -> a = b.
Proof.
  revert b. induction a as [|x a IH]; intros [|y b]; simpl; try discriminate;
    try reflexivity.
  destruct (code x <? code y) eqn:E1; destruct (code y <? code x) eqn:E2;
    try discriminate.
  - apply Nat.ltb_lt in E1, E2. lia.
  - intros H1 H2. apply Nat.ltb_ge in E1, E2.
    rewrite (code_inj x y) by lia. f_equal. now apply IH.
Qed.

Lemma str_leb_trans (a b c : str) :
  str_leb a b = true -> str_leb b c = true -> str_leb a c = true.
Proof.
  revert b c. induction a as [|x a IH]; intros [|y b] [|z c]; simpl;
    try discriminate; try reflexivity.
  destruct (Nat.ltb_spec (code x) (code y));
    destruct (Nat.ltb_spec (code y) (code x));
    destruct (Nat.ltb_spec (code y) (code z));
    destruct (Nat.ltb_spec (code z) (code y));
    destruct (Nat.ltb_spec (code x) (code z));
    destruct (Nat.ltb_spec (code z) (code x));
    intros Lab Lbc;
    first [ discriminate | reflexivity | exfalso; lia
          | eapply IH; eassumption ].
Qed.

Lemma insertSorted_perm (x : str) (l : list str) :
  Permutation (x :: l) (insertSorted x l).
Proof.
  induction l as [|y l IH]; simpl; [reflexivity|].
  destruct (str_leb x y); [reflexivity|].
  rewrite perm_swap. now apply perm_skip.
Qed.

Lemma sortStrings_perm (l : list str) : Permutation l (sortStrings l).
Proof.
  induction l as [|x l IH]; simpl; [reflexivity|].
  rewrite <- insertSorted_perm. now apply perm_skip.
Qed.

Lemma insertSorted_sorted (x : str) (l : list str) :
  sorted l -> sorted (insertSorted x l).
Proof.
  induction l as [|y l IH]; simpl; intros H.
  - split; [intros y []| exact I].
  - destruct H as [Hy Hl]. destruct (str_leb x y) eqn:E; simpl.
    + split; [|split; assumption].
      intros z [<- | Hz]; [exact E|].
      apply str_leb_trans with (b := y); auto.
    + split; [|now apply IH].
      intros z Hz.
      apply (Permutation_in _ (Permutation_sym (insertSorted_perm x l))) in Hz.
      destruct Hz as [<- | Hz]; [now apply str_leb_total | now apply Hy].
Qed.

Lemma sortStrings_sorted (l : list str) : sorted (sortStrings l).
Proof.
  induction l as [|x l IH]; simpl; [exact I|]. now apply insertSorted_sorted.
Qed.

Lemma str_leb_refl (a : str) : str_leb a a = true.
Proof.
  induction a as [|x a IH]; simpl; [reflexivity|].
  now rewrite Nat.ltb_irrefl.
Qed.

(** Two sorted arrangements of the same strings are equal. *)
Lemma sorted_unique (l1 l2 : list str) :
  sorted l1 -> sorted l2 -> Permutation l1 l2 -> l1 = l2.
Proof.
  revert l2. induction l1 as [|x l1 IH]; intros l2 H1 H2 P.
  - apply Permutation_nil in P. now subst.
  - destruct l2 as [|y l2];
      [apply Permutation_sym, Permutation_nil in P; discriminate|].
    destruct H1 as [Hx H1]. destruct H2 as [Hy H2].
    assert (E : x = y).
    { assert (Ix : In x (y :: l2))
        by (apply (Permutation_in _ P); now left).
      assert (Iy : In y (x :: l1))
        by (apply (Permutation_in _ (Permutation_sym P)); now left).
      apply str_leb_antisym.
      - destruct Iy as [<- | Iy]; [apply str_leb_refl | now apply Hx].
      - destruct Ix as [<- | Ix]; [apply str_leb_refl | now apply Hy]. }
    subst y. f_equal. apply IH; try assumption.
    now apply Permutation_cons_inv in P.
Qed.

Lemma list_eqb_eq (a b : list str) : list_eqb a b = true <-> a = b.
Proof.
  revert b. induction a as [|x a IH]; intros [|y b]; simpl; split;
    try discriminate; try reflexivity.
  - intros H. apply andb_true_iff in H as [H1 H2].
    apply str_eqb_eq in H1. apply IH in H2. now subst.
  - intros H. injection H as -> ->. apply andb_true_iff.
    split; [now apply str_eqb_eq | now apply IH].
Qed.

(** X16: the verdict of the test suite compares the sorted result with the
    sorted expectation: a test passes exactly when the result is some
    rearrangement of the expected names, so the order of the names that
    [analyzeQuery] returns is not tested. *)
Theorem passed_iff_permutation (result expected : list str) :
  passed result expected = true <-> Permutation result expected.
Proof.
  unfold passed. rewrite list_eqb_eq. split.
  - intros H. rewrite (sortStrings_perm result), H.
    apply Permutation_sym, sortStrings_perm.
  - intros P. apply sorted_unique; try apply sortStrings_sorted.
    rewrite <- (sortStrings_perm result), <- (sortStrings_perm expected).
    exact P.
Qed.

(** ** Letter case *)

















(** ** An empty select list *)

(** X18: an empty select list is no error: the query [SELECT FROM table]
    is analyzed to the empty list of names, and so is the query that is the
    word SELECT alone. *)
Theorem empty_select_list (this : SQLQueryAnalyzer.t) (table : str)
    (Htable : is_token table) :
  analyzeQuery this (JsString (selectQuery [] table)) = Return []
  /\ analyzeQuery this (JsString "SELECT") = Return [].
Proof.
  split; [|reflexivity].
  assert (Htoks : Forall is_token [lit "SELECT"; lit "FROM"; table]).
  { constructor; [split; [discriminate | reflexivity]|].
    constructor; [split; [discriminate | reflexivity]|].
    constructor; [exact Htable | constructor]. }
  assert (Hclean : cleanQuery (selectQuery [] table) = selectQuery [] table).
  { unfold selectQuery. simpl app. now rewrite cleanQuery_join, words_join. }
  assert (Hq : selectQuery [] table = lit "SELECT" ++ [] ++ lit " FROM " ++ table).
  { unfold selectQuery. simpl app. rewrite join_sp_spaced.
    unfold spaced. simpl. now rewrite app_nil_r. }
  rewrite analyze_string by (rewrite Hq; discriminate).
  rewrite Hclean.
  assert (Hsel : isSelectQuery (selectQuery [] table) = true).
  { rewrite <- Hclean, isSelectQuery_clean, Hclean.
    unfold begins_with_select. rewrite Hq.
    unfold toUpperCase. rewrite map_app. apply startsWith_app_self. }
  rewrite Hsel. f_equal. rewrite Hq, clause_at; try reflexivity.
  apply selectEnd_before_from; try reflexivity.
  intros k Hk. simpl in Hk. lia.
Qed.

Lemma empty_select_list_witness :
  analyzeQuery constructor (JsString "SELECT FROM users") = Return [].
Proof.
  refine (proj1 (@empty_select_list constructor (lit "users") _)).
  split; [discriminate | reflexivity].
Defined.

(** The call of [main.js]. *)
Example main_js_call :
  analyze "SELECT TRIM(TRIM(v.year) || ' ' || TRIM(v.make_name) || ' ' || TRIM(v.model_name) || ' ' || TRIM(v.series_name)) AS YMMS, v.vin, v.vehicle_id, FLOOR(SYSDATE - TO_DATE(r2.response, 'MM/DD/YYYY')) AS daysSinceCheckin FROM wf_interactions i INNER JOIN wf_interaction_responses r2 ON i.wf_interaction_id = r2.wf_interaction_id AND r2.question_key = 'returnDate' INNER JOIN vehicles v ON v.vehicle_id = i.vehicle_id and v.active = 1 WHERE i.wf_interaction_status_id IN (1,4) AND (0 = 1 OR (v.vehicle_status_id IN (10,12) AND v.system_id = 2)) AND (196140 IS NULL OR i.organization_id LIKE 196140)"
  = returns ["YMMS"; "vin"; "vehicle_id"; "daysSinceCheckin"].
Proof. vm_compute. reflexivity. Qed.

Lemma scanner_literals_witness :
  scanStep ")" None
    {| parenthesesLevel := 1; inQuotes := true; quoteChar := Some squote |}
  = {| parenthesesLevel := 1; inQuotes := true; quoteChar := Some squote |}.
Proof.
  apply (proj1 (proj2 scanner_literals)) with (q := squote).
  - reflexivity.
  - reflexivity.
  - left. discriminate.
Defined.

